(** * scummer: the parser of [scummvm --detect] output

    A shallow embedding of [parseScummvmOutput] (main.go) and of the library
    calls it is built from, followed by the properties of the parser.

    Go strings are byte sequences, so a string is a [list ascii].  The three
    regular expressions of the function only use ASCII literals, the classes
    [.] and [\s], and repetitions of one class; the embedding has a small
    backtracking matcher for exactly that fragment, with Go's leftmost-first
    preference order (the match a backtracking engine finds first).  An
    ASCII byte always starts a rune of its own in UTF-8 decoding, so for these
    patterns matching byte by byte and rune by rune agree.

    The stemmer ([snowball.Stem]), [filepath.Base] and the similarity metric
    ([strutil.Similarity]) are libraries outside the repository: the parser
    is embedded over them as section variables.  A float64 score is modelled
    by a rational number. *)

From Stdlib Require Import Ascii String List Bool Arith Lia QArith Lqa Permutation.
Import ListNotations.
Close Scope Q_scope.
Open Scope nat_scope.


(** ** Strings as bytes *)

Definition str := list ascii.

Definition bytes (s : string) : str := list_ascii_of_string s.

Definition LF : ascii := ascii_of_nat 10.
Definition CR : ascii := ascii_of_nat 13.

(** [len(s) == 0], the test behind [s == ""]. *)
Definition is_empty (s : str) : bool :=
  match s with [] => true | _ :: _ => false end.

(** ** package strings *)

Module strings.

Fixpoint HasPrefix (s prefix : str) : bool :=
  match prefix, s with
  | [], _ => true
  | p :: prefix', a :: s' => Ascii.eqb a p && HasPrefix s' prefix'
  | _ :: _, [] => false
  end.

Fixpoint Contains (s substr : str) : bool :=
  HasPrefix s substr ||
  match s with
  | [] => false
  | _ :: s' => Contains s' substr
  end.

(** [Split s sep] for a non-empty [sep]: the pieces between the successive
    non-overlapping occurrences of [sep], scanning from the left.  [skip]
    counts the bytes of an occurrence still to pass over. *)
Fixpoint split_from (sep : str) (skip : nat) (s : str) : list str :=
  match s with
  | [] => [[]]
  | a :: s' =>
      match skip with
      | S k => split_from sep k s'
      | O =>
          if HasPrefix s sep then [] :: split_from sep (length sep - 1) s'
          else match split_from sep 0 s' with
               | piece :: pieces => (a :: piece) :: pieces
               | [] => [[a]]
               end
      end
  end.

Definition Split (s sep : str) : list str := split_from sep 0 s.

(** [Join elems sep]. *)
Fixpoint Join (elems : list str) (sep : str) : str :=
  match elems with
  | [] => []
  | [e] => e
  | e :: rest => e ++ sep ++ Join rest sep
  end.

End strings.

(** ** package regexp, for the fragment the parser uses *)

Module regexp.

Definition cclass := ascii -> bool.

(** [.] without the [s] flag: any character but a line feed. *)
Definition dot : cclass := fun c => negb (Ascii.eqb c LF).

(** [\s] is [[\t\n\f\r ]]. *)
Definition space : cclass := fun c =>
  match nat_of_ascii c with
  | 9 | 10 | 12 | 13 | 32 => true
  | _ => false
  end.

Definition only (c : ascii) : cclass := fun a => Ascii.eqb a c.

Inductive greed := Greedy | Lazy.

Inductive atom :=
| Lit (c : ascii)                              (* a literal byte *)
| Cls (cl : cclass)                            (* one byte of a class *)
| Many (cl : cclass) (lo : nat) (g : greed)    (* cl{lo,} or cl{lo,}? *)
| Group (cl : cclass) (lo : nat) (g : greed).  (* the same, capturing *)

Record Regexp := MustCompile
  { bol : bool;            (* the pattern starts with ^ *)
    atoms : list atom;
    eol : bool }.          (* the pattern ends with $ *)

Section Repetition.
Context {R : Type} (cl : cclass).
(** [k taken rest]: the rest of the pattern, run after the repetition
    has consumed [taken]. *)
Variable k : str -> str -> option R.

(** Lazy repetition: the fewest bytes first. *)
Fixpoint rep_lazy (lo : nat) (taken s : str) {struct s} : option R :=
  match lo with
  | S lo' =>
      match s with
      | a :: s' => if cl a then rep_lazy lo' (taken ++ [a]) s' else None
      | [] => None
      end
  | O =>
      match k taken s with
      | Some r => Some r
      | None =>
          match s with
          | a :: s' => if cl a then rep_lazy 0 (taken ++ [a]) s' else None
          | [] => None
          end
      end
  end.

(** Greedy repetition: the most bytes first, giving back one at a time. *)
Fixpoint rep_greedy (lo : nat) (taken s : str) {struct s} : option R :=
  match s with
  | a :: s' =>
      if cl a then
        match rep_greedy (pred lo) (taken ++ [a]) s' with
        | Some r => Some r
        | None => match lo with O => k taken s | S _ => None end
        end
      else match lo with O => k taken s | S _ => None end
  | [] => match lo with O => k taken s | S _ => None end
  end.

Definition rep (g : greed) : nat -> str -> str -> option R :=
  match g with Greedy => rep_greedy | Lazy => rep_lazy end.
End Repetition.

(** The atoms [p] matched at the start of [s]; [caps] are the groups
    captured so far.  With [atEnd] the match must stop at the end of the
    text ([$] without the [m] flag). *)
Fixpoint run (p : list atom) (atEnd : bool) (caps : list str) (s : str)
  : option (list str) :=
  match p with
  | [] =>
      if atEnd then match s with [] => Some caps | _ :: _ => None end
      else Some caps
  | Lit c :: p' =>
      match s with
      | a :: s' => if Ascii.eqb a c then run p' atEnd caps s' else None
      | [] => None
      end
  | Cls cl :: p' =>
      match s with
      | a :: s' => if cl a then run p' atEnd caps s' else None
      | [] => None
      end
  | Many cl lo g :: p' =>
      rep cl (fun _ rest => run p' atEnd caps rest) g lo [] s
  | Group cl lo g :: p' =>
      rep cl (fun taken rest => run p' atEnd (caps ++ [taken]) rest) g lo [] s
  end.

(** The leftmost match: every start position in turn. *)
Fixpoint find_from (re : Regexp) (s : str) : option (list str) :=
  match run (atoms re) (eol re) [] s with
  | Some caps => Some caps
  | None =>
      match s with
      | [] => None
      | _ :: s' => find_from re s'
      end
  end.

(** The captured groups of the leftmost match, [$1] first. *)
Definition FindStringSubmatch (re : Regexp) (s : str) : option (list str) :=
  if bol re then run (atoms re) (eol re) [] s else find_from re s.

Definition MatchString (re : Regexp) (s : str) : bool :=
  match FindStringSubmatch re s with Some _ => true | None => false end.

(** [re.ReplaceAllString(src, "$n")] for a pattern anchored at both ends:
    a match is then the whole of [src], so the result is the expansion of
    the template, group [n]; without a match [src] comes back unchanged. *)
Definition ReplaceAllString (re : Regexp) (src : str) (n : nat) : str :=
  match FindStringSubmatch re src with
  | Some caps => nth (n - 1) caps []
  | None => src
  end.

Definition lits (s : string) : list atom := map Lit (bytes s).

End regexp.

Import regexp.

(** ** main.go *)

Record ScummGameMatch := mkScummGameMatch
  { GameID : str;
    Description : str;
    Directory : str }.

(** The three errors [parseScummvmOutput] builds with [fmt.Errorf]. *)
Inductive parse_error :=
| NotFound            (* scummvm could not find any game *)
| NoTableFound        (* scummvm output does not contain a match for regex ... *)
| EmptyCandidateSet.  (* scummvm output slice is empty *)

(** What a call does: return [(GameID, Description, nil)], return an error,
    or panic on an index out of range. *)
Inductive outcome :=
| Return (gameID description : str)
| Fail (err : parse_error)
| Panic.

Definition sentinel : str := bytes "WARNING: ScummVM could not find any game in".

(** [GameID\s+Description\s+Full Path] *)
Definition headerMatcher : Regexp :=
  MustCompile false
    (lits "GameID" ++ [Many space 1 Greedy] ++ lits "Description"
       ++ [Many space 1 Greedy] ++ lits "Full Path")
    false.

(** [^(.+?)\s{2,}(.+?)\s{2,}(.+?)$] *)
Definition matcher : Regexp :=
  MustCompile true
    [Group dot 1 Lazy; Many space 2 Greedy; Group dot 1 Lazy;
     Many space 2 Greedy; Group dot 1 Lazy]
    true.

(** [^-+\s-+\s-+$] *)
Definition lineMatcher : Regexp :=
  MustCompile true
    [Many (only "-") 1 Greedy; Cls space; Many (only "-") 1 Greedy;
     Cls space; Many (only "-") 1 Greedy]
    true.

(** Lines 96-99: the line terminator found in the text. *)
Definition eol_of (scummvmOutput : str) : str :=
  if strings.Contains scummvmOutput [CR; LF] then [CR; LF] else [LF].

Definition scummvmOutputSplit (scummvmOutput : str) : list str :=
  strings.Split scummvmOutput (eol_of scummvmOutput).

(** Lines 125-128: the struct filled from one line. *)
Definition row_of (line : str) : ScummGameMatch :=
  {| GameID := ReplaceAllString matcher line 1;
     Description := ReplaceAllString matcher line 2;
     Directory := ReplaceAllString matcher line 3 |}.

(** Line 132. *)
Definition has_empty_field (m : ScummGameMatch) : bool :=
  is_empty (GameID m) || is_empty (Description m) || is_empty (Directory m).

(** Lines 121-138: the inner loop over the lines after the rule. *)
Fixpoint rows_after (lines : list str) : list ScummGameMatch :=
  match lines with
  | [] => []
  | line :: lines' =>
      let scummGameMatch := row_of line in
      if has_empty_field scummGameMatch then rows_after lines'
      else scummGameMatch :: rows_after lines'
  end.

(** Lines 116-143: the outer loop, up to the first rule line. *)
Fixpoint rows_of_lines (lines : list str) : list ScummGameMatch :=
  match lines with
  | [] => []
  | line :: lines' =>
      if MatchString lineMatcher line then rows_after lines'
      else rows_of_lines lines'
  end.

Definition scummvmOutputSlice (scummvmOutput : str) : list ScummGameMatch :=
  rows_of_lines (scummvmOutputSplit scummvmOutput).

(** Lines 84-149, the table extractor: the candidate rows or the error. *)
Definition extract (scummvmOutput : str) : parse_error + list ScummGameMatch :=
  if strings.Contains scummvmOutput sentinel then inl NotFound
  else if negb (MatchString headerMatcher scummvmOutput) then inl NoTableFound
  else
    match scummvmOutputSlice scummvmOutput with
    | [] => inl EmptyCandidateSet
    | slice => inr slice
    end.

(** Lines 157-161: the configuration of the metric. *)
Record Levenshtein := mkLevenshtein
  { CaseSensitive : bool;
    InsertCost : nat;
    ReplaceCost : nat;
    DeleteCost : nat }.

Definition lev : Levenshtein :=
  {| CaseSensitive := false; InsertCost := 1; ReplaceCost := 2; DeleteCost := 1 |}.

(** [a > b] on scores. *)
Definition Qgtb (a b : Q) : bool := negb (Qle_bool a b).

Section Disambiguator.

(** [snowball.Stem(word, "english", false)]: [None] stands for [err != nil]. *)
Variable Stem : str -> option str.
(** [filepath.Base]. *)
Variable Base : str -> str.
(** [strutil.Similarity(a, b, lev)]. *)
Variable Similarity : str -> str -> Levenshtein -> Q.

(** Lines 170-189, one iteration; the state is
    [(closestMatchIndex, closestMatchDistance)]. *)
Definition scan_body (i : nat) (m : ScummGameMatch) (st : nat * Q) : nat * Q :=
  match Stem (Description m) with
  | None => st
  | Some stemmedGameDescription =>
      let baseDirectory := Base (Directory m) in
      match Stem baseDirectory with
      | None => st
      | Some stemmedDirectory =>
          let levenshteinDistance :=
            Similarity stemmedGameDescription stemmedDirectory lev in
          if Qgtb levenshteinDistance (snd st) then (i, levenshteinDistance)
          else st
      end
  end.

(** Lines 169-190: the iterations from index [i] on. *)
Fixpoint scan (i : nat) (rest : list ScummGameMatch) (st : nat * Q) : nat * Q :=
  match rest with
  | [] => st
  | m :: rest' => scan (S i) rest' (scan_body i m st)
  end.

Definition closestMatch (slice : list ScummGameMatch) : nat * Q :=
  scan 0 slice (0%nat, 0%Q).

(** Lines 151-193. *)
Definition disambiguate (slice : list ScummGameMatch) : outcome :=
  match slice with
  | [only1] => Return (GameID only1) (Description only1)
  | _ =>
      let closestMatchIndex := fst (closestMatch slice) in
      match nth_error slice closestMatchIndex with
      | Some m => Return (GameID m) (Description m)
      | None => Panic
      end
  end.

Definition parseScummvmOutput (scummvmOutput : str) : outcome :=
  match extract scummvmOutput with
  | inl err => Fail err
  | inr slice => disambiguate slice
  end.

(** The score the scan gives a candidate, when it gives one. *)
Definition score (m : ScummGameMatch) : option Q :=
  match Stem (Description m) with
  | None => None
  | Some d =>
      match Stem (Base (Directory m)) with
      | None => None
      | Some b => Some (Similarity d b lev)
      end
  end.

(** A candidate skipped by the scan counts as similarity 0. *)
Definition score_or_zero (m : ScummGameMatch) : Q :=
  match score m with Some q => q | None => 0 end.

End Disambiguator.

(** ** The program around the parser: [executeScummvmBinary],
    [getScummvmDataFileDirectories] and [main]

    The program talks to the outside through the Go libraries: it reads
    [os.Args], asks [os.Stat] and [os.ReadDir], runs the tool, prints, and
    writes files.  The outside is a state [World] that every library call
    may read and change; what a call hands back is given by the section
    variables below.  A run keeps a log of its calls and of what they
    returned. *)

Record FileInfo := mkFileInfo { info_IsDir : bool }.

Record DirEntry := mkDirEntry { entry_Name : str; entry_IsDir : bool }.

Inductive event :=
| Stdout (text : str)                              (* fmt.Println, fmt.Printf *)
| Ran (binary : str) (args : list str) (output : str) (failed : bool)
                                                   (* cmd.Run *)
| Wrote (name data : str) (failed : bool)          (* ioutil.WriteFile *)
| Created (name : str) (failed : bool)             (* os.Create *)
| WroteString (name data : str) (failed : bool)    (* File.WriteString *)
| Closed (name : str).                             (* the deferred File.Close *)

(** [err.Error()] of the three errors of [parseScummvmOutput]. *)
Definition quote : ascii := ascii_of_nat 34.

Definition parse_error_text (err : parse_error) : str :=
  match err with
  | NotFound => bytes "scummvm could not find any game"
  | NoTableFound =>
      bytes "scummvm output does not contain a match for regex "
        ++ [quote] ++ bytes "GameID\s+Description\s+Full Path" ++ [quote]
  | EmptyCandidateSet => bytes "scummvm output slice is empty"
  end.

(** The marks printed after each directory, in UTF-8. *)
Definition check_mark : str := map ascii_of_nat [226; 156; 133].
Definition cross_mark : str := map ascii_of_nat [226; 157; 140].

Definition is_some {A : Type} (o : option A) : bool :=
  match o with Some _ => true | None => false end.

Section Program.

Variable World : Type.
(** A Go error that is not nil, and an open [*os.File]. *)
Variable Err : Type.
Variable File : Type.

Variable ErrorText : Err -> str.                 (* err.Error() *)
Variable IsNotExist : Err -> bool.               (* os.IsNotExist *)
(** [os.Stat]: the [FileInfo] and the error, either of which may be nil. *)
Variable os_Stat : str -> World -> option FileInfo * option Err * World.
(** [cmd.Run] with the standard output captured in a buffer. *)
Variable cmd_Run : str -> list str -> World -> str * option Err * World.
Variable os_ReadDir : str -> World -> list DirEntry * option Err * World.
Variable filepath_Join : str -> str -> str.
(** [json.MarshalIndent(v, "", "    ")]. *)
Variable json_MarshalIndent : list ScummGameMatch -> str * option Err.
Variable ioutil_WriteFile : str -> str -> World -> option Err * World.
(** [os.Create] returns a file or an error. *)
Variable os_Create : str -> World -> (Err + File) * World.
Variable File_WriteString : File -> str -> World -> option Err * World.
Variable File_Close : File -> World -> World.

Variable Stem : str -> option str.
Variable Base : str -> str.
Variable Similarity : str -> str -> Levenshtein -> Q.

(** The state of a run: the outside, the log, and the files whose [Close]
    is deferred, the last deferred first. *)
Record state := mkState
  { world : World;
    log : list event;
    deferred : list (File * str) }.

(** A step of [main] goes on with a value, returns from [main], or
    panics. *)
Inductive step (A : Type) :=
| Go (a : A) (st : state)
| Exit (st : state)
| Crash (st : state).
Arguments Go {A} a st.
Arguments Exit {A} st.
Arguments Crash {A} st.

Definition M (A : Type) : Type := state -> step A.

Definition ret {A : Type} (a : A) : M A := fun st => Go a st.

Definition bind {A B : Type} (m : M A) (k : A -> M B) : M B :=
  fun st =>
    match m st with
    | Go a st' => k a st'
    | Exit st' => Exit st'
    | Crash st' => Crash st'
    end.

Local Notation "x <- m ;; k" := (bind m (fun x => k))
  (at level 61, m at next level, right associativity).
Local Notation "m ;; k" := (bind m (fun _ => k))
  (at level 61, right associativity).

(** [return] out of [main]. *)
Definition exit {A : Type} : M A := fun st => Exit st.

Definition panic {A : Type} : M A := fun st => Crash st.

Definition emit (e : event) : M unit :=
  fun st => Go tt (mkState (world st) (log st ++ [e]) (deferred st)).

Definition call {A : Type} (f : World -> A * World) : M A :=
  fun st =>
    let (a, w) := f (world st) in Go a (mkState w (log st) (deferred st)).

Definition defer_Close (file : File) (name : str) : M unit :=
  fun st => Go tt (mkState (world st) (log st) ((file, name) :: deferred st)).

Definition Println (text : str) : M unit := emit (Stdout (text ++ [LF])).
Definition Printf (text : str) : M unit := emit (Stdout text).

(** Lines 200-214. *)
Definition executeScummvmBinary (scummvmBinaryFile : str)
           (commandLineArguments : list str) : M (str * option Err) :=
  r <- call (cmd_Run scummvmBinaryFile commandLineArguments) ;;
  emit (Ran scummvmBinaryFile commandLineArguments (fst r) (is_some (snd r))) ;;
  match snd r with
  | Some err => ret (fst r, Some err)
  | None => ret (fst r, None)
  end.

(** Lines 229-235: the loop over the entries. *)
Fixpoint directories_of (files : list DirEntry)
         (scummvmDataFileDirectories : list str) : list str :=
  match files with
  | [] => scummvmDataFileDirectories
  | file :: files' =>
      if entry_IsDir file
      then directories_of files'
                          (scummvmDataFileDirectories ++ [entry_Name file])
      else directories_of files' scummvmDataFileDirectories
  end.

(** Lines 218-239. *)
Definition getScummvmDataFileDirectories (scummvmDataFileDirectory : str)
  : M (Err + list str) :=
  r <- call (os_ReadDir scummvmDataFileDirectory) ;;
  match snd r with
  | Some err => ret (inl err)
  | None => ret (inr (directories_of (fst r) []))
  end.

(** Lines 253-256 and 258-261: [os.IsNotExist(err) && f.IsDir()], where
    calling [IsDir] on a nil [FileInfo] panics. *)
Definition check_argument (path message : str) : M unit :=
  r <- call (os_Stat path) ;;
  match snd r with
  | None => ret tt
  | Some err =>
      if IsNotExist err then
        match fst r with
        | None => panic
        | Some f => if info_IsDir f then Println message ;; exit else ret tt
        end
      else ret tt
  end.

Definition unknown : str := bytes "unknown".

(** Lines 291-319. *)
Fixpoint detect_loop (scummvmBinaryFile scummvmDataFileDirectory : str)
         (scummvmDataFileDirectories : list str)
         (scummvmOutputSlice scummvmOutputErrorSlice : list ScummGameMatch)
  : M (list ScummGameMatch * list ScummGameMatch) :=
  match scummvmDataFileDirectories with
  | [] => ret (scummvmOutputSlice, scummvmOutputErrorSlice)
  | scummvmDataFilePath :: rest =>
      let scummvmJoinedDataFilePath :=
        filepath_Join scummvmDataFileDirectory scummvmDataFilePath in
      Printf (scummvmJoinedDataFilePath ++ bytes "... ") ;;
      r <- executeScummvmBinary
             scummvmBinaryFile
             [bytes "--detect"; bytes "--path=" ++ scummvmJoinedDataFilePath] ;;
      match snd r with
      | Some err =>
          Printf (cross_mark ++ [LF]) ;;
          detect_loop scummvmBinaryFile scummvmDataFileDirectory rest
                      scummvmOutputSlice
                      (scummvmOutputErrorSlice
                         ++ [mkScummGameMatch unknown (ErrorText err)
                                              scummvmJoinedDataFilePath])
      | None =>
          match parseScummvmOutput Stem Base Similarity (fst r) with
          | Fail err =>
              Printf (cross_mark ++ [LF]) ;;
              detect_loop scummvmBinaryFile scummvmDataFileDirectory rest
                          scummvmOutputSlice
                          (scummvmOutputErrorSlice
                             ++ [mkScummGameMatch unknown
                                                  (parse_error_text err)
                                                  scummvmJoinedDataFilePath])
          | Return scummvmGameID scummvmDescription =>
              Printf (check_mark ++ [LF]) ;;
              detect_loop scummvmBinaryFile scummvmDataFileDirectory rest
                          (scummvmOutputSlice
                             ++ [mkScummGameMatch scummvmGameID
                                                  scummvmDescription
                                                  scummvmJoinedDataFilePath])
                          scummvmOutputErrorSlice
          | Panic => panic
          end
      end
  end.

(** Lines 322-331 and 334-343: one report file. *)
Definition write_report (name : str) (entries : list ScummGameMatch) : M unit :=
  match json_MarshalIndent entries with
  | (_, Some err) => Println (ErrorText err) ;; exit
  | (json, None) =>
      e <- call (ioutil_WriteFile name json) ;;
      emit (Wrote name json (is_some e)) ;;
      match e with
      | Some err => Println (ErrorText err) ;; exit
      | None => ret tt
      end
  end.

(** Lines 348-366. *)
Fixpoint write_markers (scummvmOutputSlice : list ScummGameMatch) : M unit :=
  match scummvmOutputSlice with
  | [] => ret tt
  | scummvmOutput :: rest =>
      let scummvmFileName := Directory scummvmOutput ++ bytes ".scummvm" in
      r <- call (os_Create scummvmFileName) ;;
      match r with
      | inl err =>
          emit (Created scummvmFileName true) ;;
          Println (ErrorText err) ;; exit
      | inr scummvmFile =>
          emit (Created scummvmFileName false) ;;
          defer_Close scummvmFile scummvmFileName ;;
          e <- call (File_WriteString scummvmFile (GameID scummvmOutput)) ;;
          emit (WroteString scummvmFileName (GameID scummvmOutput) (is_some e)) ;;
          match e with
          | Some err => Println (ErrorText err) ;; exit
          | None => write_markers rest
          end
      end
  end.

(** Lines 241-368, for [os.Args = Args]. *)
Definition main (Args : list str) : M unit :=
  if length Args <? 3 then
    Println (bytes "Please provide two arguments: <scummvm binary file> <scummvm data file directory>") ;;
    exit
  else
    let scummvmBinaryFile := nth 1 Args [] in
    let scummvmDataFileDirectory := nth 2 Args [] in
    check_argument scummvmBinaryFile (bytes "The first argument is not a file") ;;
    check_argument scummvmDataFileDirectory
                   (bytes "The second argument is not a directory") ;;
    v <- executeScummvmBinary scummvmBinaryFile [bytes "--version"] ;;
    match snd v with
    | Some err => Println (fst v) ;; Println (ErrorText err) ;; exit
    | None =>
        if negb (strings.Contains (fst v) (bytes "ScummVM")) then
          Println (bytes "The scummvm binary file is invalid") ;; exit
        else
          d <- getScummvmDataFileDirectories scummvmDataFileDirectory ;;
          match d with
          | inl err => Println (ErrorText err) ;; exit
          | inr scummvmDataFileDirectories =>
              r <- detect_loop scummvmBinaryFile scummvmDataFileDirectory
                               scummvmDataFileDirectories [] [] ;;
              write_report (bytes "success.json") (fst r) ;;
              write_report (bytes "error.json") (snd r) ;;
              Println (bytes "Writing entries out to .scummvm files...") ;;
              write_markers (fst r)
          end
    end.

(** The deferred calls, run when [main] returns or panics. *)
Fixpoint run_deferred (calls : list (File * str)) (w : World) (l : list event)
  : World * list event :=
  match calls with
  | [] => (w, l)
  | (file, name) :: calls' =>
      run_deferred calls' (File_Close file w) (l ++ [Closed name])
  end.

Definition final_state {A : Type} (r : step A) : state :=
  match r with Go _ st | Exit st | Crash st => st end.

Definition crashed {A : Type} (r : step A) : bool :=
  match r with Crash _ => true | _ => false end.

(** A whole run from the world [w]: what the world and the log are at the
    end, and whether the run panicked. *)
Definition run_main (Args : list str) (w : World) : World * list event * bool :=
  let r := main Args (mkState w [] []) in
  let st := final_state r in
  (run_deferred (deferred st) (world st) (log st), crashed r).

End Program.

Arguments Go {World File A} a st.
Arguments Exit {World File A} st.
Arguments Crash {World File A} st.
Arguments mkState {World File} world log deferred.
Arguments world {World File} s.
Arguments log {World File} s.
Arguments deferred {World File} s.
Arguments ret {World File A} a st.
Arguments bind {World File A B} m k st.
Arguments exit {World File A} st.
Arguments panic {World File A} st.
Arguments emit {World File} e st.
Arguments call {World File A} f st.
Arguments defer_Close {World File} file name st.
Arguments Println {World File} text st.
Arguments Printf {World File} text st.
Arguments final_state {World File A} r.
Arguments crashed {World File A} r.

(** ** The similarity scorer *)

Module strutil.

(** [strings.ToLower] on the ASCII letters. *)
Definition to_lower (c : ascii) : ascii :=
  let n := nat_of_ascii c in
  if (65 <=? n) && (n <=? 90) then ascii_of_nat (n + 32) else c.

Definition ToLower (s : str) : str := map to_lower s.

Definition min3 (a b c : nat) : nat := Nat.min a (Nat.min b c).


(** The same distance computed row by row, as a Levenshtein metric is
    implemented: a row holds the distances from one suffix of [a] to every
    suffix of [b], the longest first. *)
Fixpoint first_row (m : Levenshtein) (b : str) : list nat :=
  match b with
  | [] => [0]
  | _ :: b' => InsertCost m * length b :: first_row m b'
  end.

Fixpoint next_row (m : Levenshtein) (x : ascii) (lenA : nat) (b : str)
         (prev : list nat) : list nat :=
  match b, prev with
  | [], _ => [DeleteCost m * lenA]
  | y :: b', p :: prev' =>
      let cur' := next_row m x lenA b' prev' in
      min3 (p + DeleteCost m)
           (hd 0 cur' + InsertCost m)
           (hd 0 prev' + (if Ascii.eqb x y then 0 else ReplaceCost m))
      :: cur'
  | _ :: _, [] => []
  end.

Fixpoint rows (m : Levenshtein) (a b : str) : list nat :=
  match a with
  | [] => first_row m b
  | x :: a' => next_row m x (length a) b (rows m a' b)
  end.

Definition distance (m : Levenshtein) (a b : str) : nat := hd 0 (rows m a b).

(** Clamping to [[0, 1]]. *)
Definition clamp01 (q : Q) : Q :=
  if Qle_bool q 0 then 0%Q else if Qle_bool 1 q then 1%Q else q.

(** Modelled from the spec: [strutil.Similarity(a, b, m)], absent from the
    repository.  The distance is taken without regard to case unless [m]
    is case sensitive, normalised against the longer input's length as
    1 - distance/maxLen and clamped to [[0, 1]]; two empty inputs are
    identical. *)
Definition Similarity (a b : str) (m : Levenshtein) : Q :=
  let a := if CaseSensitive m then a else ToLower a in
  let b := if CaseSensitive m then b else ToLower b in
  let maxLen := Nat.max (length a) (length b) in
  match maxLen with
  | O => 1%Q
  | S _ => clamp01 (1 - (Z.of_nat (distance m a b) # Pos.of_nat maxLen))%Q
  end.

End strutil.

(** ** Instances of the library functions, for running the parser *)

(** A stemmer that leaves every word as it is. *)
Definition stem_id (word : str) : option str := Some word.

(** A stemmer that fails on every word. *)
Definition stem_fail (word : str) : option str := None.

(** The last element of a path whose separator is [sep], as [filepath.Base]
    gives it for a path without trailing separators. *)
Definition base_of (sep : ascii) (path : str) : str :=
  last (strings.Split path [sep]) [].

Definition backslash : ascii := ascii_of_nat 92.

Definition scummer : str -> outcome :=
  parseScummvmOutput stem_id (base_of backslash) strutil.Similarity.

(** Sample outputs of the tool, after the comments of main.go. *)
Definition unlines (ls : list string) : str := strings.Join (map bytes ls) [LF].

Definition header_line : string :=
  "GameID                         Description                                                Full Path".
Definition rule_line : string :=
  "------------------------------ ---------------------------------------------------------- ---------------------------------------------------------".

Definition sample_not_found : str :=
  unlines ["WARNING: ScummVM could not find any game in G:\example\SCUMMVM";
           "WARNING: Consider using --recursive to search inside subdirectories"]%string.

Definition loom_row : string :=
  "scumm:loom                     Loom (VGA/DOS/English)                                     G:\example\scummvm\Loom (CD DOS VGA)".

Definition sample_loom : str := unlines [header_line; rule_line; loom_row]%string.

(** The not-found warning followed by a well-formed table. *)
Definition sample_warning_and_table : str :=
  unlines ["WARNING: ScummVM could not find any game in G:\example\SCUMMVM";
           header_line; rule_line; loom_row]%string.

(** A table without its header line. *)
Definition sample_no_header : str := unlines [rule_line; loom_row]%string.

(** A table without its rule line. *)
Definition sample_no_rule : str := unlines [header_line; loom_row]%string.

(** A table followed by a line that holds one space. *)
Definition sample_blank_row : str :=
  unlines [header_line; rule_line; loom_row; " "]%string.

(** A table followed by a line that is not a row. *)
Definition sample_stray_line : str :=
  unlines [header_line; rule_line; loom_row; "Please report this"]%string.

Definition astro_lines : list str :=
  map bytes
      [header_line; rule_line;
       "director:iwave                 Interactive Wave (Issue 1/Macintosh/English)               G:\example\SCUMMVM\Astro Chicken (Floppy DOS)";
       "sci:astrochicken               Astro Chicken (DOS/English)                                G:\example\SCUMMVM\Astro Chicken (Floppy DOS)"]%string.

Definition sample_astro : str := strings.Join astro_lines [LF].

(** ** A small outside, for running [main]

    The world has no state; an error is its message and a file is its
    name.  Every path exists and is a directory, the data directory holds
    the directories Loom and Empty and a file, and the tool finds a game
    in Loom only. *)
Definition demo_Stat (path : str) (w : unit)
  : option FileInfo * option str * unit :=
  (Some (mkFileInfo true), None, tt).

Definition demo_Run (binary : str) (args : list str) (w : unit)
  : str * option str * unit :=
  match args with
  | [_] => (bytes "ScummVM 2.7.0 (Feb 14 2023 14:26:43)" ++ [LF], None, tt)
  | _ :: path :: _ =>
      if strings.Contains path (bytes "Loom")
      then (sample_loom ++ [LF], None, tt)
      else (sample_not_found ++ [LF], None, tt)
  | [] => ([], Some (bytes "no arguments"), tt)
  end.

Definition demo_ReadDir (dir : str) (w : unit)
  : list DirEntry * option str * unit :=
  ([mkDirEntry (bytes "Empty") true; mkDirEntry (bytes "Loom") true;
    mkDirEntry (bytes "readme.txt") false], None, tt).

Definition demo_Join (dir name : str) : str := dir ++ bytes "/" ++ name.

(** A stand-in for the JSON encoder: the identifiers, one per line. *)
Definition demo_Marshal (entries : list ScummGameMatch) : str * option str :=
  (strings.Join (map GameID entries) [LF], None).

Definition demo_WriteFile (name data : str) (w : unit) : option str * unit :=
  (None, tt).

Definition demo_Create (name : str) (w : unit) : (str + str) * unit :=
  (inr name, tt).

Definition demo_WriteString (file data : str) (w : unit) : option str * unit :=
  (None, tt).

Definition demo_Close (file : str) (w : unit) : unit := tt.

Definition demo_run (Args : list str) : unit * list event * bool :=
  @run_main unit str str
           (fun err : str => err) (fun _ => false) demo_Stat demo_Run
           demo_ReadDir demo_Join demo_Marshal demo_WriteFile demo_Create
           demo_WriteString demo_Close
           stem_id (base_of backslash) strutil.Similarity Args tt.

Definition demo_Args : list str :=
  [bytes "scummer"; bytes "scummvm"; bytes "games"].

(** ** Vocabulary of the properties *)

(** The text starts with two whitespace characters. *)
Definition starts2 (s : str) : bool :=
  match s with
  | a :: b :: _ => space a && space b
  | _ => false
  end.

(** No two whitespace characters in a row, and none at the end. *)
Fixpoint tight (s : str) : bool :=
  match s with
  | [] => true
  | a :: s' =>
      match s' with
      | [] => negb (space a)
      | b :: _ => negb (space a && space b) && tight s'
      end
  end.

(** A field of a row: a non-empty piece of a line that neither starts nor
    ends with whitespace and has no run of two or more whitespace
    characters; single embedded spaces are allowed. *)
Definition is_field (f : str) : bool :=
  match f with [] => false | a :: _ => negb (space a) end
  && forallb dot f && tight f.

(** A column separator: a run of two or more whitespace characters. *)
Definition is_sep (w : str) : bool := (2 <=? length w) && forallb space w.

(** The lines after the first rule line. *)
Fixpoint after_rule (lines : list str) : list str :=
  match lines with
  | [] => []
  | line :: lines' =>
      if MatchString lineMatcher line then lines' else after_rule lines'
  end.

(** [strings.TrimSpace] on ASCII text. *)
Definition ascii_space (c : ascii) : bool :=
  match nat_of_ascii c with
  | 9 | 10 | 11 | 12 | 13 | 32 => true
  | _ => false
  end.

Fixpoint trim_left (s : str) : str :=
  match s with
  | [] => []
  | a :: s' => if ascii_space a then trim_left s' else s
  end.

Definition TrimSpace (s : str) : str := rev (trim_left (rev (trim_left s))).


(** What the scan of lines 169-190 knows after the candidates [pre]: the
    best score is not below the baseline, bounds every score seen, is
    strictly above the scores before the recorded index, and is either
    still the baseline at index 0 or the score of the recorded candidate. *)
Definition scan_inv (Stem : str -> option str) (Base : str -> str)
           (Similarity : str -> str -> Levenshtein -> Q)
           (pre : list ScummGameMatch) (st : nat * Q) : Prop :=
  (0 <= snd st)%Q
  /\ (forall c, In c pre -> (score_or_zero Stem Base Similarity c <= snd st)%Q)
  /\ (forall j c, j < fst st -> nth_error pre j = Some c ->
                  (score_or_zero Stem Base Similarity c < snd st)%Q)
  /\ ((fst st = 0 /\ snd st = 0%Q)
      \/ exists c, nth_error pre (fst st) = Some c
                   /\ score Stem Base Similarity c = Some (snd st)).


(** A character that is neither a carriage return nor a line feed. *)
Definition ordinary (c : ascii) : bool :=
  negb (Ascii.eqb c CR) && negb (Ascii.eqb c LF).

(** [lf_of s1 s2]: [s2] is [s1] with every CR LF terminator turned into a
    bare LF, both texts having no other CR or LF. *)
Inductive lf_of : str -> str -> Prop :=
| lf_of_nil : lf_of [] []
| lf_of_char c s1 s2 :
    ordinary c = true -> lf_of s1 s2 -> lf_of (c :: s1) (c :: s2)
| lf_of_eol s1 s2 :
    lf_of s1 s2 -> lf_of (CR :: LF :: s1) (LF :: s2).

(** A line made of no carriage return and no line feed. *)
Definition one_line (l : str) : bool := forallb ordinary l.

(** The text after its leading whitespace. *)
Fixpoint skip_space (s : str) : str :=
  match s with
  | [] => []
  | a :: s' => if space a then skip_space s' else s
  end.

(** A pattern that reads a CR LF text and its LF form alike. *)
Definition lf_blind (caps : list str) (p : list atom) : Prop :=
  forall s1 s2, lf_of s1 s2 -> run p false caps s1 = run p false caps s2.

(** The score of spec 4.3 without its clamp, 1 - distance/maxLen. *)
Definition unclamped (a b : str) (m : Levenshtein) : Q :=
  let a := if CaseSensitive m then a else strutil.ToLower a in
  let b := if CaseSensitive m then b else strutil.ToLower b in
  (1 - (Z.of_nat (strutil.distance m a b)
        # Pos.of_nat (Nat.max (length a) (length b))))%Q.

(** Two rows whose descriptions share nothing with the directory name. *)
Definition sample_strangers : str :=
  unlines [header_line; rule_line;
           "first:id    xyz    abc";
           "second:id    axyz    abcd"]%string.

(** Somewhere in the text two whitespace characters stand in a row. *)
Fixpoint has_space_run (s : str) : bool :=
  starts2 s || match s with [] => false | _ :: s' => has_space_run s' end.

(** A row whose columns are one space apart. *)
Definition sample_single_spaced : str := bytes "scumm:loom Loom G:\loom".

(** Two tables in one output, as for an unknown game variant. *)
Definition sample_two_tables : str :=
  unlines [header_line; rule_line; loom_row; rule_line; loom_row]%string.

(** A pattern that does not see the whitespace [w] at the end of a text. *)
Definition ws_blind (w : str) (caps : list str) (p : list atom) : Prop :=
  forall u, run p false caps (u ++ w) = run p false caps u.

(** Kinds of log entries. *)
Definition is_stdout (e : event) : bool :=
  match e with Stdout _ => true | _ => false end.

Definition is_closed (e : event) : bool :=
  match e with Closed _ => true | _ => false end.

Definition is_version_run (e : event) : bool :=
  match e with
  | Ran _ args _ _ =>
      if list_eq_dec (list_eq_dec ascii_dec) args [bytes "--version"]
      then true else false
  | _ => false
  end.

(** An entry that is neither output nor the run of [--version]: a
    detection, a file written, created or closed. *)
Definition acts (e : event) : bool := negb (is_stdout e || is_version_run e).

(** The names of the files that were created, and of those that were
    closed, in the order of the log. *)
Definition created_files (l : list event) : list str :=
  flat_map (fun e => match e with Created n false => [n] | _ => [] end) l.

Definition closed_files (l : list event) : list str :=
  flat_map (fun e => match e with Closed n => [n] | _ => [] end) l.

(** The log of a run of the tool on the directory [path]. *)
Definition detection (binary path output : str) : event :=
  Ran binary [bytes "--detect"; bytes "--path=" ++ path] output false.

(** * Properties *)

(** ** The repetition operators *)

Section RepetitionFacts.
Context {R : Type} (cl : cclass) (k : str -> str -> option R).

Lemma rep_lazy_zero taken s :
  rep_lazy cl k 0 taken s =
  match k taken s with
  | Some r => Some r
  | None =>
      match s with
      | a :: s' => if cl a then rep_lazy cl k 0 (taken ++ [a]) s' else None
      | [] => None
      end
  end.
Proof. destruct s; reflexivity. Qed.

Lemma rep_lazy_succ lo taken s :
  rep_lazy cl k (S lo) taken s =
  match s with
  | a :: s' => if cl a then rep_lazy cl k lo (taken ++ [a]) s' else None
  | [] => None
  end.
Proof. destruct s; reflexivity. Qed.

(** What a successful repetition consumed. *)
Lemma rep_lazy_sound s : forall lo taken r,
  rep_lazy cl k lo taken s = Some r ->
  exists t rest, s = t ++ rest /\ lo <= length t /\ forallb cl t = true
                 /\ k (taken ++ t) rest = Some r.
Proof.
  induction s as [|a s IH]; intros lo taken r H.
  - destruct lo; cbn in H; [|discriminate].
    destruct (k taken []) eqn:E; [|discriminate].
    exists [], []. cbn. rewrite app_nil_r. repeat split; auto. congruence.
  - destruct lo as [|lo].
    + rewrite rep_lazy_zero in H.
      destruct (k taken (a :: s)) eqn:E.
      * exists [], (a :: s). cbn. rewrite app_nil_r. repeat split; auto. congruence.
      * destruct (cl a) eqn:Ca; [|discriminate].
        destruct (IH _ _ _ H) as (t & rest & -> & Hlo & Hcl & Hk).
        exists (a :: t), rest. cbn. rewrite Ca, Hcl.
        rewrite <- app_assoc in Hk. repeat split; auto; lia.
    + rewrite rep_lazy_succ in H.
      destruct (cl a) eqn:Ca; [|discriminate].
      destruct (IH _ _ _ H) as (t & rest & -> & Hlo & Hcl & Hk).
      exists (a :: t), rest. cbn. rewrite Ca, Hcl.
      rewrite <- app_assoc in Hk. repeat split; auto; lia.
Qed.

Lemma rep_greedy_sound s : forall lo taken r,
  rep_greedy cl k lo taken s = Some r ->
  exists t rest, s = t ++ rest /\ lo <= length t /\ forallb cl t = true
                 /\ k (taken ++ t) rest = Some r.
Proof.
  assert (Hstop : forall lo taken s r,
             match lo with O => k taken s | S _ => None end = Some r ->
             exists t rest, s = t ++ rest /\ lo <= length t
                            /\ forallb cl t = true
                            /\ k (taken ++ t) rest = Some r).
  { intros [|lo] taken s0 r H; [|discriminate].
    exists [], s0. cbn. rewrite app_nil_r. repeat split; auto. }
  induction s as [|a s IH]; intros lo taken r H.
  - cbn in H. apply Hstop; assumption.
  - cbn in H. destruct (cl a) eqn:Ca; [|apply Hstop; assumption].
    destruct (rep_greedy cl k (Nat.pred lo) (taken ++ [a]) s) eqn:E.
    + injection H as ->.
      destruct (IH _ _ _ E) as (t & rest & -> & Hlo & Hcl & Hk).
      exists (a :: t), rest. cbn. rewrite Ca, Hcl.
      rewrite <- app_assoc in Hk. repeat split; auto; lia.
    + apply Hstop; assumption.
Qed.

(** The lazy repetition stops at the first length at which the rest of
    the pattern succeeds. *)
Lemma rep_lazy_first t : forall rest lo taken r,
  forallb cl t = true ->
  lo <= length t ->
  k (taken ++ t) rest = Some r ->
  (forall t1 t2, t = t1 ++ t2 -> t2 <> [] -> lo <= length t1 ->
                 k (taken ++ t1) (t2 ++ rest) = None) ->
  rep_lazy cl k lo taken (t ++ rest) = Some r.
Proof.
  induction t as [|a t IH]; intros rest lo taken r Hcl Hlo Hk Hfail.
  - cbn in Hlo. assert (lo = 0) as -> by lia.
    cbn [app]. rewrite rep_lazy_zero.
    rewrite app_nil_r in Hk. now rewrite Hk.
  - cbn in Hcl. apply andb_true_iff in Hcl as [Ca Hcl].
    assert (Hnext : forall lo', lo' <= length t ->
              (forall t1 t2, t = t1 ++ t2 -> t2 <> [] -> lo' <= length t1 ->
                 k ((taken ++ [a]) ++ t1) (t2 ++ rest) = None) ->
              rep_lazy cl k lo' (taken ++ [a]) (t ++ rest) = Some r).
    { intros lo' Hlo' Hf. apply IH; auto. now rewrite <- app_assoc. }
    assert (Hshift : forall lo', (forall t1 t2, a :: t = t1 ++ t2 -> t2 <> [] ->
                  lo <= length t1 -> k (taken ++ t1) (t2 ++ rest) = None) ->
               lo <= S lo' ->
               forall t1 t2, t = t1 ++ t2 -> t2 <> [] -> lo' <= length t1 ->
                 k ((taken ++ [a]) ++ t1) (t2 ++ rest) = None).
    { intros lo' Hf Hle t1 t2 -> Hne Hl. rewrite <- app_assoc.
      apply (Hf (a :: t1) t2); auto. cbn. lia. }
    destruct lo as [|lo]; cbn [app].
    + rewrite rep_lazy_zero.
      pose proof (Hfail [] (a :: t) eq_refl ltac:(discriminate) (Nat.le_0_l _)) as H0.
      rewrite app_nil_r in H0. cbn [app] in H0. rewrite H0, Ca. apply Hnext; [lia|]. apply Hshift; auto.
    + rewrite rep_lazy_succ, Ca. cbn in Hlo.
      apply Hnext; [lia|]. apply Hshift; auto.
Qed.

(** The greedy repetition takes the whole run when the rest of the
    pattern succeeds after it. *)
Lemma rep_greedy_all t : forall rest lo taken r,
  forallb cl t = true ->
  lo <= length t ->
  match rest with [] => true | c :: _ => negb (cl c) end = true ->
  k (taken ++ t) rest = Some r ->
  rep_greedy cl k lo taken (t ++ rest) = Some r.
Proof.
  induction t as [|a t IH]; intros rest lo taken r Hcl Hlo Hrest Hk.
  - cbn in Hlo. assert (lo = 0) as -> by lia.
    rewrite app_nil_r in Hk. cbn [app].
    destruct rest as [|c rest]; cbn; [assumption|].
    apply negb_true_iff in Hrest. now rewrite Hrest.
  - cbn in Hcl. apply andb_true_iff in Hcl as [Ca Hcl].
    cbn. rewrite Ca. rewrite (IH rest (Nat.pred lo) (taken ++ [a]) r); auto.
    + cbn in Hlo. lia.
    + now rewrite <- app_assoc.
Qed.

(** Wherever some split lets the rest of the pattern succeed, the
    repetition succeeds (possibly at another split). *)
Lemma rep_lazy_complete t : forall rest lo taken,
  forallb cl t = true ->
  lo <= length t ->
  k (taken ++ t) rest <> None ->
  rep_lazy cl k lo taken (t ++ rest) <> None.
Proof.
  induction t as [|a t IH]; intros rest lo taken Hcl Hlo Hk.
  - cbn in Hlo. assert (lo = 0) as -> by lia.
    rewrite app_nil_r in Hk. cbn [app]. rewrite rep_lazy_zero.
    destruct (k taken rest); [discriminate|congruence].
  - cbn in Hcl. apply andb_true_iff in Hcl as [Ca Hcl].
    assert (Hnext : forall lo', lo' <= length t ->
              rep_lazy cl k lo' (taken ++ [a]) (t ++ rest) <> None).
    { intros lo' Hlo'. apply IH; auto. now rewrite <- app_assoc. }
    destruct lo as [|lo]; cbn [app].
    + rewrite rep_lazy_zero. destruct (k taken (a :: t ++ rest)); [discriminate|].
      rewrite Ca. apply Hnext. lia.
    + rewrite rep_lazy_succ, Ca. apply Hnext. cbn in Hlo. lia.
Qed.

Lemma rep_greedy_complete t : forall rest lo taken,
  forallb cl t = true ->
  lo <= length t ->
  k (taken ++ t) rest <> None ->
  rep_greedy cl k lo taken (t ++ rest) <> None.
Proof.
  induction t as [|a t IH]; intros rest lo taken Hcl Hlo Hk.
  - cbn in Hlo. assert (lo = 0) as -> by lia.
    rewrite app_nil_r in Hk. cbn [app].
    destruct rest as [|c rest]; cbn; [assumption|].
    destruct (cl c); [|assumption].
    destruct (rep_greedy cl k 0 (taken ++ [c]) rest); [discriminate|assumption].
  - cbn in Hcl. apply andb_true_iff in Hcl as [Ca Hcl].
    cbn. rewrite Ca.
    assert (H : rep_greedy cl k (Nat.pred lo) (taken ++ [a]) (t ++ rest) <> None).
    { apply IH; auto. cbn in Hlo; lia. now rewrite <- app_assoc. }
    destruct (rep_greedy cl k (Nat.pred lo) (taken ++ [a]) (t ++ rest));
      [discriminate|congruence].
Qed.

End RepetitionFacts.

(** ** Running a pattern *)

Lemma run_group_sound cl lo g p e caps s r :
  run (Group cl lo g :: p) e caps s = Some r ->
  exists t rest, s = t ++ rest /\ lo <= length t /\ forallb cl t = true
                 /\ run p e (caps ++ [t]) rest = Some r.
Proof.
  cbn [run]. destruct g; cbn [rep]; intros H;
    [apply rep_greedy_sound in H | apply rep_lazy_sound in H]; exact H.
Qed.

Lemma run_many_sound cl lo g p e caps s r :
  run (Many cl lo g :: p) e caps s = Some r ->
  exists t rest, s = t ++ rest /\ lo <= length t /\ forallb cl t = true
                 /\ run p e caps rest = Some r.
Proof.
  cbn [run]. destruct g; cbn [rep]; intros H;
    [apply rep_greedy_sound in H | apply rep_lazy_sound in H]; exact H.
Qed.

Lemma run_group_complete cl lo g p e caps t rest :
  forallb cl t = true -> lo <= length t ->
  (forall caps', run p e caps' rest <> None) ->
  run (Group cl lo g :: p) e caps (t ++ rest) <> None.
Proof.
  intros Hcl Hlo Hk. cbn [run].
  destruct g; cbn [rep];
    [apply rep_greedy_complete | apply rep_lazy_complete]; auto.
Qed.

Lemma run_many_complete cl lo g p e caps t rest :
  forallb cl t = true -> lo <= length t ->
  run p e caps rest <> None ->
  run (Many cl lo g :: p) e caps (t ++ rest) <> None.
Proof.
  intros Hcl Hlo Hk. cbn [run].
  destruct g; cbn [rep];
    [apply rep_greedy_complete | apply rep_lazy_complete]; auto.
Qed.

Lemma run_group_lazy cl lo p e caps t rest r :
  forallb cl t = true -> lo <= length t ->
  run p e (caps ++ [t]) rest = Some r ->
  (forall t1 t2, t = t1 ++ t2 -> t2 <> [] -> lo <= length t1 ->
                 run p e (caps ++ [t1]) (t2 ++ rest) = None) ->
  run (Group cl lo Lazy :: p) e caps (t ++ rest) = Some r.
Proof.
  intros Hcl Hlo Hk Hfail. cbn [run rep].
  apply rep_lazy_first; auto.
Qed.

Lemma run_many_greedy cl lo p e caps t rest r :
  forallb cl t = true -> lo <= length t ->
  match rest with [] => true | c :: _ => negb (cl c) end = true ->
  run p e caps rest = Some r ->
  run (Many cl lo Greedy :: p) e caps (t ++ rest) = Some r.
Proof.
  intros Hcl Hlo Hrest Hk. cbn [run rep].
  apply rep_greedy_all; auto.
Qed.

(** [\s{2,}] needs two whitespace characters to start with. *)
Lemma run_sep_starts2 g p e caps s r :
  run (Many space 2 g :: p) e caps s = Some r -> starts2 s = true.
Proof.
  intros H. apply run_many_sound in H as (t & rest & -> & Hlo & Hcl & _).
  destruct t as [|a [|b t]]; cbn in Hlo; try lia.
  cbn in Hcl. apply andb_true_iff in Hcl as [Ha Hcl].
  apply andb_true_iff in Hcl as [Hb _]. cbn. now rewrite Ha, Hb.
Qed.

Lemma run_sep_fails g p e caps s :
  starts2 s = false -> run (Many space 2 g :: p) e caps s = None.
Proof.
  intros H. destruct (run (Many space 2 g :: p) e caps s) eqn:E; [|reflexivity].
  apply run_sep_starts2 in E. congruence.
Qed.

(** ** Fields and separators *)

Lemma tight_tail a s : s <> [] -> tight (a :: s) = true -> tight s = true.
Proof.
  destruct s as [|b s]; [congruence|]. intros _ H.
  cbn [tight] in H. apply andb_true_iff in H as [_ H]. exact H.
Qed.

(** Inside a field, and at its end, no separator can start. *)
Lemma tight_no_sep t1 : forall t2 rest,
  tight (t1 ++ t2) = true -> t2 <> [] -> starts2 (t2 ++ rest) = false.
Proof.
  induction t1 as [|a t1 IH]; intros t2 rest H Hne.
  - cbn [app] in H. destruct t2 as [|c1 [|c2 t2]]; [congruence| |].
    + cbn in H. apply negb_true_iff in H.
      destruct rest; cbn; [reflexivity|]. now rewrite H.
    + cbn [tight] in H. apply andb_true_iff in H as [H _].
      apply negb_true_iff in H. exact H.
  - apply IH; auto. cbn [app] in H. apply tight_tail in H; auto.
    destruct t1; cbn; [assumption|discriminate].
Qed.

Lemma is_field_inv f :
  is_field f = true ->
  1 <= length f /\ forallb dot f = true /\ tight f = true
  /\ forall rest, match f ++ rest with
                  | [] => true
                  | c :: _ => negb (space c)
                  end = true.
Proof.
  unfold is_field. intros H.
  apply andb_true_iff in H as [H Ht]. apply andb_true_iff in H as [Hh Hd].
  destruct f as [|a f]; [discriminate|].
  repeat split; auto. cbn; lia.
Qed.

Lemma is_sep_inv w :
  is_sep w = true -> 2 <= length w /\ forallb space w = true.
Proof.
  unfold is_sep. intros H. apply andb_true_iff in H as [H1 H2].
  apply Nat.leb_le in H1. auto.
Qed.

Lemma is_sep_intro w :
  2 <= length w -> forallb space w = true -> is_sep w = true.
Proof.
  intros H1 H2. unfold is_sep. rewrite H2, andb_true_r. now apply Nat.leb_le.
Qed.

(** ** The row pattern *)

(** A field followed by a separator is captured whole by [(.+?)]. *)
Lemma run_field_then_sep f w rest p caps r :
  is_field f = true -> is_sep w = true ->
  match rest with [] => true | c :: _ => negb (space c) end = true ->
  run p true (caps ++ [f]) rest = Some r ->
  run (Group dot 1 Lazy :: Many space 2 Greedy :: p) true caps
      (f ++ w ++ rest) = Some r.
Proof.
  intros Hf Hw Hrest Hk.
  apply is_field_inv in Hf as (Hlen & Hdot & Htight & _).
  apply is_sep_inv in Hw as (Hwl & Hws).
  apply run_group_lazy; auto.
  - apply run_many_greedy; auto.
  - intros t1 t2 -> Hne _. apply run_sep_fails.
    apply tight_no_sep with (t1 := t1); auto.
Qed.

Lemma matcher_fields id w1 desc w2 path :
  is_field id = true -> is_sep w1 = true ->
  is_field desc = true -> is_sep w2 = true ->
  is_field path = true ->
  FindStringSubmatch matcher (id ++ w1 ++ desc ++ w2 ++ path)
  = Some [id; desc; path].
Proof.
  intros Hid Hw1 Hdesc Hw2 Hpath.
  unfold FindStringSubmatch, matcher. cbn [bol atoms eol].
  pose proof (is_field_inv _ Hdesc) as (_ & _ & _ & Hd0).
  pose proof (is_field_inv _ Hpath) as (Hpl & Hpd & _ & Hp0).
  specialize (Hp0 []). rewrite app_nil_r in Hp0.
  apply run_field_then_sep; [exact Hid | exact Hw1 | apply Hd0 |].
  apply run_field_then_sep; [exact Hdesc | exact Hw2 | exact Hp0 |].
  rewrite <- (app_nil_r path) at 1.
  apply run_group_lazy; auto.
  intros t1 t2 _ Hne _. rewrite app_nil_r. cbn.
  destruct t2; [congruence|reflexivity].
Qed.

(** The language of the row pattern: a match splits the line into three
    captured non-empty groups without a line feed, separated by runs of two
    or more whitespace characters. *)
Lemma matcher_sound line caps :
  FindStringSubmatch matcher line = Some caps ->
  exists g1 w1 g2 w2 g3,
    line = g1 ++ w1 ++ g2 ++ w2 ++ g3 /\ caps = [g1; g2; g3]
    /\ (1 <= length g1 /\ forallb dot g1 = true)
    /\ is_sep w1 = true
    /\ (1 <= length g2 /\ forallb dot g2 = true)
    /\ is_sep w2 = true
    /\ (1 <= length g3 /\ forallb dot g3 = true).
Proof.
  unfold FindStringSubmatch, matcher. cbn [bol atoms eol]. intros H.
  apply run_group_sound in H as (g1 & r1 & -> & Hl1 & Hd1 & H).
  apply run_many_sound in H as (w1 & r2 & -> & Hlw1 & Hs1 & H).
  apply run_group_sound in H as (g2 & r3 & -> & Hl2 & Hd2 & H).
  apply run_many_sound in H as (w2 & r4 & -> & Hlw2 & Hs2 & H).
  apply run_group_sound in H as (g3 & r5 & -> & Hl3 & Hd3 & H).
  cbn in H. destruct r5; [|discriminate]. injection H as <-.
  exists g1, w1, g2, w2, g3. rewrite app_nil_r.
  repeat split; auto using is_sep_intro.
Qed.

Lemma matcher_complete g1 w1 g2 w2 g3 :
  1 <= length g1 -> forallb dot g1 = true -> is_sep w1 = true ->
  1 <= length g2 -> forallb dot g2 = true -> is_sep w2 = true ->
  1 <= length g3 -> forallb dot g3 = true ->
  MatchString matcher (g1 ++ w1 ++ g2 ++ w2 ++ g3) = true.
Proof.
  intros Hl1 Hd1 Hw1 Hl2 Hd2 Hw2 Hl3 Hd3.
  apply is_sep_inv in Hw1 as (Hlw1 & Hs1).
  apply is_sep_inv in Hw2 as (Hlw2 & Hs2).
  unfold MatchString, FindStringSubmatch, matcher. cbn [bol atoms eol].
  match goal with |- match ?x with _ => _ end = _ =>
    assert (Hx : x <> None); [|destruct x; congruence] end.
  apply run_group_complete; auto. intros c1.
  apply run_many_complete; auto.
  apply run_group_complete; auto. intros c2.
  apply run_many_complete; auto.
  rewrite <- (app_nil_r g3).
  apply run_group_complete; auto. intros c3. cbn. discriminate.
Qed.

(** ** Rows *)

Lemma row_of_unmatched line :
  MatchString matcher line = false ->
  row_of line = mkScummGameMatch line line line.
Proof.
  unfold MatchString, row_of, ReplaceAllString.
  destruct (FindStringSubmatch matcher line); [discriminate|reflexivity].
Qed.

Lemma row_of_matched line g1 g2 g3 :
  FindStringSubmatch matcher line = Some [g1; g2; g3] ->
  row_of line = mkScummGameMatch g1 g2 g3.
Proof.
  unfold row_of, ReplaceAllString. now intros ->.
Qed.

(** Only the empty line gives a row with an empty field. *)
Lemma has_empty_field_row line :
  has_empty_field (row_of line) = is_empty line.
Proof.
  destruct (FindStringSubmatch matcher line) as [caps|] eqn:E.
  - destruct (matcher_sound _ _ E)
      as (g1 & w1 & g2 & w2 & g3 & -> & -> & [H1 _] & _ & [H2 _] & _ & [H3 _]).
    rewrite (row_of_matched _ _ _ _ E). unfold has_empty_field. cbn.
    destruct g1, g2, g3; cbn in *; lia || reflexivity.
  - rewrite row_of_unmatched by (unfold MatchString; now rewrite E).
    unfold has_empty_field. cbn. now destruct line.
Qed.

Lemma rows_after_filter lines :
  rows_after lines
  = filter (fun m => negb (has_empty_field m)) (map row_of lines).
Proof.
  induction lines as [|l lines IH]; cbn [rows_after map filter]; [reflexivity|].
  destruct (has_empty_field (row_of l)); cbn [negb]; now rewrite IH.
Qed.

Lemma rows_of_lines_after lines :
  rows_of_lines lines = rows_after (after_rule lines).
Proof.
  induction lines as [|l lines IH]; cbn [rows_of_lines after_rule]; [reflexivity|].
  destruct (MatchString lineMatcher l); auto.
Qed.

Lemma slice_rows s :
  scummvmOutputSlice s
  = filter (fun m => negb (has_empty_field m))
           (map row_of (after_rule (scummvmOutputSplit s))).
Proof.
  unfold scummvmOutputSlice. now rewrite rows_of_lines_after, rows_after_filter.
Qed.

Lemma after_rule_incl lines l : In l (after_rule lines) -> In l lines.
Proof.
  induction lines as [|x lines IH]; cbn [after_rule]; [auto|].
  destruct (MatchString lineMatcher x); intros H; [right; exact H|right; auto].
Qed.

Lemma after_rule_none lines :
  (forall l, In l lines -> MatchString lineMatcher l = false) ->
  after_rule lines = [].
Proof.
  induction lines as [|x lines IH]; intros H; cbn [after_rule]; [reflexivity|].
  rewrite (H x (or_introl eq_refl)). apply IH. intros l Hl. apply H. now right.
Qed.

(** ** The extractor *)

Lemma extract_inr s slice :
  extract s = inr slice ->
  strings.Contains s sentinel = false
  /\ MatchString headerMatcher s = true
  /\ scummvmOutputSlice s = slice /\ slice <> [].
Proof.
  unfold extract.
  destruct (strings.Contains s sentinel); [discriminate|].
  destruct (MatchString headerMatcher s); [|discriminate]. cbn [negb].
  destruct (scummvmOutputSlice s) as [|m ms]; [discriminate|].
  intros H. injection H as <-. repeat split; discriminate.
Qed.

Lemma slice_from_rows s m :
  In m (scummvmOutputSlice s) ->
  exists line, In line (after_rule (scummvmOutputSplit s))
               /\ m = row_of line /\ has_empty_field m = false.
Proof.
  rewrite slice_rows. intros H. apply filter_In in H as [H Hne].
  apply in_map_iff in H as (line & <- & Hin).
  exists line. repeat split; auto. now apply negb_true_iff.
Qed.

Lemma has_empty_field_false m :
  has_empty_field m = false ->
  GameID m <> [] /\ Description m <> [] /\ Directory m <> [].
Proof.
  unfold has_empty_field. intros H.
  apply orb_false_iff in H as [H H3]. apply orb_false_iff in H as [H1 H2].
  destruct m as [[|] [|] [|]]; cbn in *; try discriminate.
  repeat split; discriminate.
Qed.

(** ** The scan for the closest match *)

Lemma Qgtb_true a b : Qgtb a b = true -> (b < a)%Q.
Proof.
  unfold Qgtb. intros H. apply negb_true_iff in H.
  apply Qnot_le_lt. intros Hle. apply Qle_bool_iff in Hle. congruence.
Qed.

Lemma Qgtb_false a b : Qgtb a b = false -> (a <= b)%Q.
Proof.
  unfold Qgtb. intros H. apply negb_false_iff in H. now apply Qle_bool_iff.
Qed.

Section ScanFacts.
Variable Stem : str -> option str.
Variable Base : str -> str.
Variable Similarity : str -> str -> Levenshtein -> Q.

Local Abbreviation score' := (score Stem Base Similarity).
Local Abbreviation eff := (score_or_zero Stem Base Similarity).
Local Abbreviation scan' := (scan Stem Base Similarity).
Local Abbreviation scan_body' := (scan_body Stem Base Similarity).
Local Abbreviation scan_inv := (scan_inv Stem Base Similarity).

Lemma scan_body_score i m st :
  scan_body' i m st =
  match score' m with
  | None => st
  | Some x => if Qgtb x (snd st) then (i, x) else st
  end.
Proof.
  unfold scan_body, score.
  destruct (Stem (Description m)); [|reflexivity].
  destruct (Stem (Base (Directory m))); reflexivity.
Qed.

Lemma score_failed m :
  Stem (Description m) = None \/ Stem (Base (Directory m)) = None ->
  score' m = None.
Proof.
  unfold score. intros [-> | H]; [reflexivity|].
  destruct (Stem (Description m)); [now rewrite H|reflexivity].
Qed.

(** A scan over candidates that are all skipped leaves the state alone. *)
Lemma scan_all_skipped rest : forall i st,
  (forall m, In m rest -> score' m = None) -> scan' i rest st = st.
Proof.
  induction rest as [|m rest IH]; intros i st H; cbn; [reflexivity|].
  rewrite scan_body_score, (H m (or_introl eq_refl)).
  apply IH. intros m' Hm'. apply H. now right.
Qed.

Lemma scan_inv_init : scan_inv [] (0, 0%Q).
Proof.
  repeat split; cbn; try easy. now left.
Qed.

Lemma scan_inv_step pre m st :
  scan_inv pre st -> scan_inv (pre ++ [m]) (scan_body' (length pre) m st).
Proof.
  destruct st as [k q]. intros (Hq & Hall & Hbefore & Hsel). cbn [fst snd] in *.
  assert (Hk : k < length pre \/ k = 0).
  { destruct Hsel as [[-> _]|(c & Hc & _)]; [now right|left].
    apply nth_error_Some. congruence. }
  assert (Hold : forall j c, j < k -> nth_error (pre ++ [m]) j = Some c ->
                             nth_error pre j = Some c).
  { intros j c Hj H. rewrite nth_error_app1 in H by lia. exact H. }
  rewrite scan_body_score. cbn [snd].
  destruct (score' m) as [x|] eqn:Em.
  - assert (Hm : eff m = x) by (unfold score_or_zero; now rewrite Em).
    destruct (Qgtb x q) eqn:Ex.
    + apply Qgtb_true in Ex. repeat split; cbn [fst snd].
      * apply Qle_trans with q; auto using Qlt_le_weak.
      * intros c Hc. apply in_app_or in Hc as [Hc|[<-|[]]].
        -- apply Qle_trans with q; auto using Qlt_le_weak.
        -- rewrite Hm. apply Qle_refl.
      * intros j c Hj Hc. rewrite nth_error_app1 in Hc by lia.
        apply Qle_lt_trans with q; auto. apply Hall. eapply nth_error_In; eauto.
      * right. exists m. split; [|exact Em].
        rewrite nth_error_app2 by lia. now rewrite Nat.sub_diag.
    + apply Qgtb_false in Ex. repeat split; cbn [fst snd]; auto.
      * intros c Hc. apply in_app_or in Hc as [Hc|[<-|[]]]; auto.
        now rewrite Hm.
      * intros j c Hj Hc. eauto.
      * destruct Hsel as [?|(c & Hc & Hs)]; [now left|right].
        exists c. split; auto. rewrite nth_error_app1; auto.
        apply nth_error_Some. congruence.
  - assert (Hm : eff m = 0%Q) by (unfold score_or_zero; now rewrite Em).
    repeat split; cbn [fst snd]; auto.
    + intros c Hc. apply in_app_or in Hc as [Hc|[<-|[]]]; auto.
      now rewrite Hm.
    + intros j c Hj Hc. eauto.
    + destruct Hsel as [?|(c & Hc & Hs)]; [now left|right].
      exists c. split; auto. rewrite nth_error_app1; auto.
      apply nth_error_Some. congruence.
Qed.

Lemma scan_inv_run rest : forall pre st,
  scan_inv pre st -> scan_inv (pre ++ rest) (scan' (length pre) rest st).
Proof.
  induction rest as [|m rest IH]; intros pre st H; cbn.
  - now rewrite app_nil_r.
  - fold scan_body' scan'.
    replace (pre ++ m :: rest) with ((pre ++ [m]) ++ rest)
      by (now rewrite <- app_assoc).
    replace (S (length pre)) with (length (pre ++ [m]))
      by (rewrite length_app; cbn; lia).
    apply IH. now apply scan_inv_step.
Qed.

Lemma closestMatch_inv slice :
  scan_inv slice (closestMatch Stem Base Similarity slice).
Proof.
  unfold closestMatch. apply (scan_inv_run slice [] (0, 0%Q)), scan_inv_init.
Qed.



Lemma disambiguate_many a b rest :
  disambiguate Stem Base Similarity (a :: b :: rest) =
  match nth_error (a :: b :: rest)
                  (fst (closestMatch Stem Base Similarity (a :: b :: rest))) with
  | Some m => Return (GameID m) (Description m)
  | None => Panic
  end.
Proof. reflexivity. Qed.

End ScanFacts.

(** ** The similarity scorer *)

Module strutil_facts.
Import strutil.













End strutil_facts.

(** ** Line terminators *)

Lemma ordinary_inv c : ordinary c = true -> c <> CR /\ c <> LF.
Proof.
  unfold ordinary. intros H. apply andb_true_iff in H as [H1 H2].
  apply negb_true_iff in H1, H2. apply Ascii.eqb_neq in H1, H2. auto.
Qed.

Lemma ordinary_eqb c :
  ordinary c = true -> Ascii.eqb CR c = false /\ Ascii.eqb LF c = false.
Proof.
  intros H. apply ordinary_inv in H as [H1 H2].
  split; apply Ascii.eqb_neq; congruence.
Qed.

Lemma HasPrefix_lf_of s1 s2 :
  lf_of s1 s2 -> forall sub, one_line sub = true ->
  strings.HasPrefix s1 sub = strings.HasPrefix s2 sub.
Proof.
  induction 1 as [|c s1 s2 Hc _ IH|s1 s2 _ IH]; intros sub Hsub.
  - reflexivity.
  - destruct sub as [|x sub]; [reflexivity|].
    cbn [one_line forallb] in Hsub. cbn [strings.HasPrefix].
    apply andb_true_iff in Hsub as [_ Hsub]. now rewrite IH.
  - destruct sub as [|x sub]; [reflexivity|].
    cbn [one_line forallb] in Hsub. cbn [strings.HasPrefix].
    apply andb_true_iff in Hsub as [Hx _].
    destruct (ordinary_eqb x Hx) as [-> ->]. reflexivity.
Qed.

Lemma Contains_lf_of s1 s2 :
  lf_of s1 s2 -> forall sub, one_line sub = true ->
  strings.Contains s1 sub = strings.Contains s2 sub.
Proof.
  induction 1 as [|c s1 s2 Hc Hrel IH|s1 s2 Hrel IH]; intros sub Hsub.
  - reflexivity.
  - cbn [strings.Contains]. rewrite (IH _ Hsub).
    now rewrite (HasPrefix_lf_of _ _ (lf_of_char _ _ _ Hc Hrel) _ Hsub).
  - cbn [strings.Contains]. rewrite (IH _ Hsub).
    destruct sub as [|x sub]; [reflexivity|]. cbn [one_line forallb] in Hsub.
    apply andb_true_iff in Hsub as [Hx _].
    destruct (ordinary_eqb x Hx) as [E1 E2].
    cbn [strings.HasPrefix]. rewrite E1, E2. reflexivity.
Qed.

Lemma skip_space_lf_of s1 s2 :
  lf_of s1 s2 -> lf_of (skip_space s1) (skip_space s2).
Proof.
  induction 1 as [|c s1 s2 Hc Hrel IH|s1 s2 Hrel IH].
  - constructor.
  - cbn [skip_space]. destruct (space c); [assumption|now constructor].
  - exact IH.
Qed.

Section SpacesThenLiteral.
Context {R : Type} (k : str -> str -> option R).
Hypothesis k_space : forall t a r, space a = true -> k t (a :: r) = None.
Hypothesis k_taken : forall t t' r, k t r = k t' r.

(** Before a literal that is not whitespace, [\s*] can only stop at the
    end of the whitespace. *)
Lemma rep_greedy_skip s : forall taken,
  rep_greedy space k 0 taken s = k [] (skip_space s).
Proof.
  induction s as [|a s IH]; intros taken; cbn [rep_greedy skip_space].
  - apply k_taken.
  - destruct (space a) eqn:Ea; [|apply k_taken].
    rewrite IH. destruct (k [] (skip_space s)); [reflexivity|].
    now apply k_space.
Qed.

Lemma rep_greedy_skip1 s taken :
  rep_greedy space k 1 taken s =
  match s with
  | a :: s' => if space a then k [] (skip_space s') else None
  | [] => None
  end.
Proof.
  destruct s as [|a s]; cbn [rep_greedy]; [reflexivity|].
  destruct (space a); [|reflexivity].
  cbn [Nat.pred]. rewrite rep_greedy_skip. now destruct (k [] (skip_space s)).
Qed.
End SpacesThenLiteral.

(** [\s+] before a literal byte: skip the whitespace, which must be there. *)
Lemma run_spaces_lit c p caps s :
  space c = false ->
  run (Many space 1 Greedy :: Lit c :: p) false caps s =
  match s with
  | a :: s' =>
      if space a then run (Lit c :: p) false caps (skip_space s') else None
  | [] => None
  end.
Proof.
  intros Hc. cbn [run rep].
  rewrite rep_greedy_skip1; [reflexivity| |reflexivity].
  intros _ a r Ha. destruct (Ascii.eqb a c) eqn:E; [|reflexivity].
  apply Ascii.eqb_eq in E. congruence.
Qed.

Section PatternOnLines.
Variable caps : list str.
Local Abbreviation lf_blind := (lf_blind caps).

Lemma lf_blind_nil : lf_blind [].
Proof. intros s1 s2 _. reflexivity. Qed.

Lemma lf_blind_lit c p : ordinary c = true -> lf_blind p -> lf_blind (Lit c :: p).
Proof.
  intros Hc Hp s1 s2 Hrel. cbn [run].
  destruct Hrel as [|a s1 s2 Ha Hrel|s1 s2 Hrel].
  - reflexivity.
  - rewrite (Hp _ _ Hrel). reflexivity.
  - destruct (ordinary_eqb c Hc) as [-> ->]. reflexivity.
Qed.

Lemma lf_blind_lits w p :
  one_line w = true -> lf_blind p -> lf_blind (map Lit w ++ p).
Proof.
  induction w as [|c w IH]; intros Hw Hp; [exact Hp|].
  cbn [one_line forallb] in Hw. apply andb_true_iff in Hw as [Hc Hw].
  cbn [map app]. apply lf_blind_lit; auto.
Qed.

Lemma lf_blind_spaces c p :
  space c = false -> lf_blind (Lit c :: p) ->
  lf_blind (Many space 1 Greedy :: Lit c :: p).
Proof.
  intros Hc Hp s1 s2 Hrel. rewrite !run_spaces_lit by assumption.
  destruct Hrel as [|a s1 s2 Ha Hrel|s1 s2 Hrel].
  - reflexivity.
  - destruct (space a); [|reflexivity].
    apply Hp. now apply skip_space_lf_of.
  - change (space CR) with true. change (space LF) with true.
    cbn [skip_space]. change (space LF) with true. cbn iota.
    apply Hp. now apply skip_space_lf_of.
Qed.
End PatternOnLines.

Lemma headerMatcher_lf_blind : lf_blind [] (atoms headerMatcher).
Proof.
  change (atoms headerMatcher) with
    (map Lit (bytes "GameID")
       ++ Many space 1 Greedy :: Lit "D"
       :: map Lit (bytes "escription")
       ++ Many space 1 Greedy :: Lit "F"
       :: map Lit (bytes "ull Path") ++ []).
  apply lf_blind_lits; [reflexivity|].
  apply lf_blind_spaces; [reflexivity|].
  apply lf_blind_lit; [reflexivity|].
  apply lf_blind_lits; [reflexivity|].
  apply lf_blind_spaces; [reflexivity|].
  apply lf_blind_lit; [reflexivity|].
  apply lf_blind_lits; [reflexivity|].
  apply lf_blind_nil.
Qed.

Lemma header_lf_of s1 s2 :
  lf_of s1 s2 ->
  MatchString headerMatcher s1 = MatchString headerMatcher s2.
Proof.
  intros Hrel. unfold MatchString, FindStringSubmatch.
  change (bol headerMatcher) with false. cbn iota.
  enough (find_from headerMatcher s1 = find_from headerMatcher s2) as ->
      by reflexivity.
  induction Hrel as [|c s1 s2 Hc Hrel IH|s1 s2 Hrel IH].
  - reflexivity.
  - cbn [find_from]. change (eol headerMatcher) with false.
    rewrite (headerMatcher_lf_blind _ _ (lf_of_char _ _ _ Hc Hrel)), IH. reflexivity.
  - cbn [find_from]. rewrite IH. reflexivity.
Qed.

(** ** Splitting and joining *)

Lemma split_from_cons sep k s : exists piece pieces, strings.split_from sep k s = piece :: pieces.
Proof.
  revert k. induction s as [|a s IH]; intros k; cbn [strings.split_from].
  - eauto.
  - destruct k as [|k]; [|apply IH].
    destruct (strings.HasPrefix (a :: s) sep); [eauto|].
    destruct (IH 0) as (piece & pieces & ->). eauto.
Qed.

Lemma HasPrefix_app x rest : strings.HasPrefix (x ++ rest) x = true.
Proof.
  induction x as [|c x IH]; [now destruct rest|].
  cbn [app strings.HasPrefix]. now rewrite Ascii.eqb_refl, IH.
Qed.

Lemma split_from_skip sep x : forall rest,
  strings.split_from sep (length x) (x ++ rest) = strings.split_from sep 0 rest.
Proof.
  induction x as [|c x IH]; intros rest; [reflexivity|].
  cbn [length app strings.split_from]. apply IH.
Qed.

Lemma split_from_sep c0 sep' rest :
  strings.split_from (c0 :: sep') 0 ((c0 :: sep') ++ rest)
  = [] :: strings.split_from (c0 :: sep') 0 rest.
Proof.
  pose proof (HasPrefix_app (c0 :: sep') rest) as H. cbn [app] in H.
  cbn [app strings.split_from]. rewrite H.
  replace (length (c0 :: sep') - 1) with (length sep') by (cbn; lia).
  now rewrite split_from_skip.
Qed.

Lemma split_from_line c0 sep' l : forall rest,
  (forall c, In c l -> c <> c0) ->
  strings.split_from (c0 :: sep') 0 (l ++ rest) =
  match strings.split_from (c0 :: sep') 0 rest with
  | piece :: pieces => (l ++ piece) :: pieces
  | [] => [l]
  end.
Proof.
  induction l as [|a l IH]; intros rest Hl.
  - cbn [app].
    now destruct (split_from_cons (c0 :: sep') 0 rest) as (piece & pieces & ->).
  - cbn [app strings.split_from strings.HasPrefix].
    assert (Ea : Ascii.eqb a c0 = false)
      by (apply Ascii.eqb_neq, Hl; now left).
    rewrite Ea. cbn [andb].
    rewrite IH by (intros c Hc; apply Hl; now right).
    now destruct (split_from_cons (c0 :: sep') 0 rest) as (piece & pieces & ->).
Qed.

(** Splitting what was joined gives the pieces back, when no piece holds
    the first byte of the separator. *)
Lemma Split_Join c0 sep' ls :
  ls <> [] ->
  (forall l, In l ls -> forall c, In c l -> c <> c0) ->
  strings.Split (strings.Join ls (c0 :: sep')) (c0 :: sep') = ls.
Proof.
  unfold strings.Split. induction ls as [|e ls IH]; intros Hne Hls; [congruence|].
  destruct ls as [|e2 ls].
  - cbn [strings.Join]. rewrite <- (app_nil_r e) at 1.
    rewrite split_from_line by (apply Hls; now left).
    cbn. now rewrite app_nil_r.
  - change (strings.Join (e :: e2 :: ls) (c0 :: sep'))
      with (e ++ (c0 :: sep') ++ strings.Join (e2 :: ls) (c0 :: sep')).
    rewrite split_from_line by (apply Hls; now left).
    rewrite split_from_sep, IH.
    + now rewrite app_nil_r.
    + discriminate.
    + intros l Hl. apply Hls. now right.
Qed.

Lemma Contains_none c0 sub s :
  (forall c, In c s -> c <> c0) -> strings.Contains s (c0 :: sub) = false.
Proof.
  induction s as [|a s IH]; intros Hs; [reflexivity|].
  cbn [strings.Contains strings.HasPrefix].
  assert (Ea : Ascii.eqb a c0 = false) by (apply Ascii.eqb_neq, Hs; now left).
  rewrite Ea. cbn [andb orb]. apply IH. intros c Hc. apply Hs. now right.
Qed.

Lemma Contains_here x sub : forall rest,
  strings.Contains (x ++ sub ++ rest) sub = true.
Proof.
  induction x as [|a x IH]; intros rest.
  - cbn [app]. destruct (sub ++ rest) eqn:E; cbn [strings.Contains];
      rewrite <- E, HasPrefix_app; reflexivity.
  - cbn [app strings.Contains]. rewrite IH. apply orb_true_r.
Qed.

Lemma In_Join c ls sep :
  In c (strings.Join ls sep) -> In c sep \/ exists l, In l ls /\ In c l.
Proof.
  induction ls as [|e ls IH]; [contradiction|].
  destruct ls as [|e2 ls].
  - cbn [strings.Join]. intros H. right. exists e. split; [now left|assumption].
  - change (strings.Join (e :: e2 :: ls) sep)
      with (e ++ sep ++ strings.Join (e2 :: ls) sep).
    intros H. apply in_app_or in H as [H|H].
    + right. exists e. split; [now left|assumption].
    + apply in_app_or in H as [H|H]; [now left|].
      destruct (IH H) as [?|(l & Hl & Hc)]; [now left|].
      right. exists l. split; [now right|assumption].
Qed.

Lemma one_line_chars l c :
  one_line l = true -> In c l -> c <> CR /\ c <> LF.
Proof.
  unfold one_line. rewrite forallb_forall. intros H Hc.
  apply ordinary_inv. now apply H.
Qed.

Lemma lf_of_app l s1 s2 :
  one_line l = true -> lf_of s1 s2 -> lf_of (l ++ s1) (l ++ s2).
Proof.
  induction l as [|c l IH]; intros Hl Hrel; [exact Hrel|].
  cbn [one_line forallb] in Hl. apply andb_true_iff in Hl as [Hc Hl].
  cbn [app]. constructor; auto.
Qed.

Lemma lf_of_Join ls :
  forallb one_line ls = true ->
  lf_of (strings.Join ls [CR; LF]) (strings.Join ls [LF]).
Proof.
  induction ls as [|e ls IH]; intros Hls; [constructor|].
  cbn [forallb] in Hls. apply andb_true_iff in Hls as [He Hls].
  destruct ls as [|e2 ls].
  - cbn [strings.Join]. rewrite <- (app_nil_r e).
    apply lf_of_app; [assumption|constructor].
  - change (lf_of (e ++ CR :: LF :: strings.Join (e2 :: ls) [CR; LF])
                  (e ++ LF :: strings.Join (e2 :: ls) [LF])).
    apply lf_of_app; [assumption|]. constructor. now apply IH.
Qed.

(** The lines of a text joined by either terminator are split back. *)
Lemma split_crlf_joined e e2 ls :
  forallb one_line (e :: e2 :: ls) = true ->
  scummvmOutputSplit (strings.Join (e :: e2 :: ls) [CR; LF]) = e :: e2 :: ls.
Proof.
  intros Hls. unfold scummvmOutputSplit, eol_of.
  assert (HC : strings.Contains (strings.Join (e :: e2 :: ls) [CR; LF]) [CR; LF]
               = true)
    by apply (Contains_here e [CR; LF] (strings.Join (e2 :: ls) [CR; LF])).
  rewrite HC.
  apply Split_Join; [discriminate|].
  intros l Hl c Hc. rewrite forallb_forall in Hls.
  now apply (one_line_chars l c (Hls l Hl)).
Qed.

Lemma split_lf_joined ls :
  ls <> [] -> forallb one_line ls = true ->
  scummvmOutputSplit (strings.Join ls [LF]) = ls.
Proof.
  intros Hne Hls. unfold scummvmOutputSplit, eol_of.
  rewrite forallb_forall in Hls.
  rewrite Contains_none.
  - apply Split_Join; [assumption|].
    intros l Hl c Hc. now apply (one_line_chars l c (Hls l Hl)).
  - intros c Hc. apply In_Join in Hc as [[<-|[]]|(l & Hl & Hc)].
    + discriminate.
    + now apply (one_line_chars l c (Hls l Hl)).
Qed.

(** ** The parser on the sample outputs of main.go *)

Example parse_not_found : scummer sample_not_found = Fail NotFound.
Proof. vm_compute. reflexivity. Qed.

Example parse_loom :
  scummer sample_loom
  = Return (bytes "scumm:loom") (bytes "Loom (VGA/DOS/English)").
Proof. vm_compute. reflexivity. Qed.

Example parse_astro :
  scummer sample_astro
  = Return (bytes "sci:astrochicken") (bytes "Astro Chicken (DOS/English)").
Proof. vm_compute. reflexivity. Qed.

(** The lazy first group stops at the first separator, the greedy
    separators take whole runs, the last group takes the rest. *)
Example row_four_columns :
  row_of (bytes "a  b  c  d")
  = mkScummGameMatch (bytes "a") (bytes "b") (bytes "c  d").
Proof. vm_compute. reflexivity. Qed.

Example row_leading_blanks :
  row_of (bytes "     a  b")
  = mkScummGameMatch (bytes " ") (bytes "a") (bytes "b").
Proof. vm_compute. reflexivity. Qed.

Example split_trailing_terminator :
  strings.Split (bytes "a" ++ [CR; LF] ++ bytes "b" ++ [CR; LF]) [CR; LF]
  = [bytes "a"; bytes "b"; []].
Proof. vm_compute. reflexivity. Qed.

(** The clamp matters: at substitution cost 2 the distance can exceed the
    longer length, and the unclamped ratio is then negative. *)
Example unclamped_negative :
  (unclamped (bytes "xyz") (bytes "abc") lev == -(1))%Q
  /\ (strutil.Similarity (bytes "xyz") (bytes "abc") lev == 0)%Q.
Proof. split; vm_compute; reflexivity. Qed.

(** So does the contract of the scorer for the scan: with a scorer that
    returns negative scores no candidate exceeds the baseline 0.0, and the
    first row is returned although the second scores higher. *)
Example negative_scores_keep_first :
  parseScummvmOutput stem_id (base_of backslash) unclamped sample_strangers
  = Return (bytes "first:id") (bytes "xyz")
  /\ map (score stem_id (base_of backslash) unclamped)
         (scummvmOutputSlice sample_strangers)
     = [Some (-3 # 3)%Q; Some (-2 # 4)%Q].
Proof. split; vm_compute; reflexivity. Qed.

(** X1. A call never panics: the index used at line 193 is always within
    the candidate slice, whatever the text, the stemmer and the scorer. *)
Lemma parse_never_panics Stem Base Similarity s :
  parseScummvmOutput Stem Base Similarity s <> Panic.
Proof.
  unfold parseScummvmOutput.
  destruct (extract s) as [e|slice] eqn:E; [discriminate|].
  apply extract_inr in E as (_ & _ & _ & Hne).
  destruct slice as [|a [|b rest]]; [congruence|discriminate|].
  rewrite disambiguate_many.
  pose proof (closestMatch_inv Stem Base Similarity (a :: b :: rest))
    as (_ & _ & _ & Hsel).
  destruct Hsel as [[-> _]|(c & -> & _)]; discriminate.
Qed.

(** * The properties of the specification *)



(** C2. A text that contains the not-found sentinel fails with [NotFound]
    whatever else it holds, a well-formed table included: the extractor
    stops there and the result does not depend on the rest of the text. *)
Theorem not_found_precedence :
  forall (Stem : str -> option str) (Base : str -> str)
         (Similarity : str -> str -> Levenshtein -> Q) s,
    strings.Contains s sentinel = true ->
    extract s = inl NotFound
    /\ parseScummvmOutput Stem Base Similarity s = Fail NotFound.
Proof.
  intros Stem Base Similarity s H.
  unfold parseScummvmOutput, extract. rewrite H. split; reflexivity.
Qed.

Lemma not_found_precedence_witness :
  extract sample_warning_and_table = inl NotFound
  /\ scummer sample_warning_and_table = Fail NotFound.
Proof.
  apply (not_found_precedence stem_id (base_of backslash) strutil.Similarity
           sample_warning_and_table).
  vm_compute. reflexivity.
Defined.

(** C3. When the extraction yields exactly one candidate row, the result
    is that row's identifier and description as extracted from its line,
    whatever the stemmer, the path function and the scorer are: they play
    no part on this path. *)
Theorem single_match_passthrough :
  forall (Stem : str -> option str) (Base : str -> str)
         (Similarity : str -> str -> Levenshtein -> Q) s c,
    extract s = inr [c] ->
    parseScummvmOutput Stem Base Similarity s
    = Return (GameID c) (Description c)
    /\ exists line, In line (after_rule (scummvmOutputSplit s))
                    /\ c = row_of line.
Proof.
  intros Stem Base Similarity s c H. split.
  - unfold parseScummvmOutput. rewrite H. reflexivity.
  - apply extract_inr in H as (_ & _ & Hs & _).
    destruct (slice_from_rows s c) as (line & Hin & Hc & _).
    + rewrite Hs. now left.
    + exists line. auto.
Qed.

Lemma single_match_passthrough_witness :
  scummer sample_loom
  = Return (bytes "scumm:loom") (bytes "Loom (VGA/DOS/English)")
  /\ exists line, In line (after_rule (scummvmOutputSplit sample_loom))
                  /\ row_of (bytes loom_row) = row_of line.
Proof.
  apply (single_match_passthrough stem_id (base_of backslash)
           strutil.Similarity sample_loom (row_of (bytes loom_row))).
  vm_compute. reflexivity.
Defined.

(** C4. A row line made of an identifier, a description and a path, each a
    field (no run of two or more whitespace characters inside, none at
    either end, single embedded spaces allowed), separated by runs of two
    or more whitespace characters, is extracted as exactly these three
    fields, and the row is kept as a candidate. *)
Theorem row_column_splitting :
  forall id w1 desc w2 path rest,
    is_field id = true -> is_sep w1 = true ->
    is_field desc = true -> is_sep w2 = true ->
    is_field path = true ->
    row_of (id ++ w1 ++ desc ++ w2 ++ path) = mkScummGameMatch id desc path
    /\ rows_after ((id ++ w1 ++ desc ++ w2 ++ path) :: rest)
       = mkScummGameMatch id desc path :: rows_after rest.
Proof.
  intros id w1 desc w2 path rest Hid Hw1 Hdesc Hw2 Hpath.
  assert (Hrow : row_of (id ++ w1 ++ desc ++ w2 ++ path)
                 = mkScummGameMatch id desc path).
  { apply row_of_matched. now apply matcher_fields. }
  split; [exact Hrow|].
  cbn [rows_after]. rewrite Hrow.
  apply is_field_inv in Hid as (Hi & _), Hdesc as (Hd & _), Hpath as (Hp & _).
  unfold has_empty_field. cbn [GameID Description Directory].
  destruct id, desc, path; cbn in Hi, Hd, Hp; try lia. reflexivity.
Qed.

Lemma row_column_splitting_witness :
  row_of (bytes "scumm:loom" ++ bytes "    " ++ bytes "Loom (VGA/DOS/English)"
            ++ bytes "  " ++ bytes "G:\example\scummvm\Loom (CD DOS VGA)")
  = mkScummGameMatch (bytes "scumm:loom") (bytes "Loom (VGA/DOS/English)")
                     (bytes "G:\example\scummvm\Loom (CD DOS VGA)")
  /\ rows_after
       [bytes "scumm:loom" ++ bytes "    " ++ bytes "Loom (VGA/DOS/English)"
          ++ bytes "  " ++ bytes "G:\example\scummvm\Loom (CD DOS VGA)"]
     = [mkScummGameMatch (bytes "scumm:loom") (bytes "Loom (VGA/DOS/English)")
                         (bytes "G:\example\scummvm\Loom (CD DOS VGA)")].
Proof.
  apply (row_column_splitting
           (bytes "scumm:loom") (bytes "    ") (bytes "Loom (VGA/DOS/English)")
           (bytes "  ") (bytes "G:\example\scummvm\Loom (CD DOS VGA)") []);
    vm_compute; reflexivity.
Defined.

(** C5, as the code has it.  In a text without the sentinel, a missing
    header phrase fails with [NoTableFound]; with the header phrase
    present and no rule line among the lines, the parser fails with
    [EmptyCandidateSet], the error of line 148, as for a table without
    valid rows. *)
Theorem malformed_table :
  forall (Stem : str -> option str) (Base : str -> str)
         (Similarity : str -> str -> Levenshtein -> Q) s,
    strings.Contains s sentinel = false ->
    (MatchString headerMatcher s = false ->
     parseScummvmOutput Stem Base Similarity s = Fail NoTableFound)
    /\ (MatchString headerMatcher s = true ->
        existsb (MatchString lineMatcher) (scummvmOutputSplit s) = false ->
        parseScummvmOutput Stem Base Similarity s = Fail EmptyCandidateSet).
Proof.
  intros Stem Base Similarity s Hs. unfold parseScummvmOutput, extract.
  rewrite Hs. split.
  - intros ->. reflexivity.
  - intros -> Hrule. cbn [negb].
    rewrite slice_rows, after_rule_none; [reflexivity|].
    intros l Hl. destruct (MatchString lineMatcher l) eqn:E; [|reflexivity].
    assert (Hex : existsb (MatchString lineMatcher) (scummvmOutputSplit s) = true)
      by (apply existsb_exists; eauto).
    congruence.
Qed.

Lemma malformed_table_witness :
  scummer sample_no_header = Fail NoTableFound
  /\ scummer sample_no_rule = Fail EmptyCandidateSet.
Proof.
  split.
  - apply (proj1 (malformed_table stem_id (base_of backslash)
                    strutil.Similarity sample_no_header
                    ltac:(vm_compute; reflexivity)));
      vm_compute; reflexivity.
  - apply (proj2 (malformed_table stem_id (base_of backslash)
                    strutil.Similarity sample_no_rule
                    ltac:(vm_compute; reflexivity)));
      vm_compute; reflexivity.
Defined.

(** C5 as stated fails: a text without the sentinel that has the header
    phrase and no rule line does not fail with [NoTableFound]. *)
Lemma missing_rule_is_not_NoTableFound :
  strings.Contains sample_no_rule sentinel = false
  /\ existsb (MatchString lineMatcher) (scummvmOutputSplit sample_no_rule)
     = false
  /\ scummer sample_no_rule = Fail EmptyCandidateSet
  /\ scummer sample_no_rule <> Fail NoTableFound.
Proof.
  split; [|split; [|split]].
  - vm_compute. reflexivity.
  - vm_compute. reflexivity.
  - vm_compute. reflexivity.
  - vm_compute. discriminate.
Qed.

(** C6. With two or more candidates, when stemming fails for every one of
    them the scan never leaves its initial state, index 0 with the
    baseline 0, and the parser returns the candidate at index 0. *)
Theorem all_stems_fail_first_wins :
  forall (Stem : str -> option str) (Base : str -> str)
         (Similarity : str -> str -> Levenshtein -> Q) s slice,
    extract s = inr slice -> 2 <= length slice ->
    (forall c, In c slice ->
       Stem (Description c) = None \/ Stem (Base (Directory c)) = None) ->
    closestMatch Stem Base Similarity slice = (0, 0%Q)
    /\ exists c0, nth_error slice 0 = Some c0
                  /\ parseScummvmOutput Stem Base Similarity s
                     = Return (GameID c0) (Description c0).
Proof.
  intros Stem Base Similarity s slice Hex Hlen Hfail.
  assert (Hc : closestMatch Stem Base Similarity slice = (0, 0%Q)).
  { unfold closestMatch. apply scan_all_skipped.
    intros m Hm. apply score_failed. now apply Hfail. }
  split; [exact Hc|].
  destruct slice as [|a [|b rest]]; cbn in Hlen; try lia.
  exists a. split; [reflexivity|].
  unfold parseScummvmOutput. rewrite Hex, disambiguate_many, Hc. reflexivity.
Qed.

Lemma all_stems_fail_first_wins_witness :
  closestMatch stem_fail (base_of backslash) strutil.Similarity
               (scummvmOutputSlice sample_astro) = (0, 0%Q)
  /\ exists c0,
       nth_error (scummvmOutputSlice sample_astro) 0 = Some c0
       /\ parseScummvmOutput stem_fail (base_of backslash) strutil.Similarity
                             sample_astro
          = Return (GameID c0) (Description c0).
Proof.
  apply (all_stems_fail_first_wins stem_fail (base_of backslash)
           strutil.Similarity sample_astro).
  - vm_compute. reflexivity.
  - vm_compute. lia.
  - intros c _. left. reflexivity.
Defined.

(** C7. The same lines (none holding a carriage return or a line feed),
    joined with CR LF or with LF, give the same candidate sequence, the
    same extraction and the same final result. *)
Theorem crlf_lf_agnostic :
  forall (Stem : str -> option str) (Base : str -> str)
         (Similarity : str -> str -> Levenshtein -> Q) lines,
    forallb one_line lines = true ->
    scummvmOutputSlice (strings.Join lines [CR; LF])
    = scummvmOutputSlice (strings.Join lines [LF])
    /\ extract (strings.Join lines [CR; LF]) = extract (strings.Join lines [LF])
    /\ parseScummvmOutput Stem Base Similarity (strings.Join lines [CR; LF])
       = parseScummvmOutput Stem Base Similarity (strings.Join lines [LF]).
Proof.
  intros Stem Base Similarity lines Hl.
  assert (Hslice : scummvmOutputSlice (strings.Join lines [CR; LF])
                   = scummvmOutputSlice (strings.Join lines [LF])).
  { destruct lines as [|e [|e2 ls]]; try reflexivity.
    unfold scummvmOutputSlice.
    rewrite split_crlf_joined, split_lf_joined; auto. discriminate. }
  assert (Hex : extract (strings.Join lines [CR; LF])
                = extract (strings.Join lines [LF])).
  { pose proof (lf_of_Join lines Hl) as Hrel. unfold extract.
    rewrite (Contains_lf_of _ _ Hrel sentinel eq_refl).
    rewrite (header_lf_of _ _ Hrel), Hslice. reflexivity. }
  repeat split; auto.
  unfold parseScummvmOutput. now rewrite Hex.
Qed.

Lemma crlf_lf_agnostic_witness :
  scummvmOutputSlice (strings.Join astro_lines [CR; LF])
  = scummvmOutputSlice (strings.Join astro_lines [LF])
  /\ extract (strings.Join astro_lines [CR; LF])
     = extract (strings.Join astro_lines [LF])
  /\ scummer (strings.Join astro_lines [CR; LF])
     = scummer (strings.Join astro_lines [LF]).
Proof.
  apply (crlf_lf_agnostic stem_id (base_of backslash) strutil.Similarity
           astro_lines).
  vm_compute. reflexivity.
Defined.


(** C9, as the code has it.  Every candidate has its three fields
    non-empty as extracted (nothing is trimmed), and the candidates are
    the rows of the lines after the rule, in order, without the rows that
    have an empty field. *)
Theorem candidate_fields_nonempty :
  forall s,
    Forall (fun m => GameID m <> [] /\ Description m <> [] /\ Directory m <> [])
           (scummvmOutputSlice s)
    /\ scummvmOutputSlice s
       = filter (fun m => negb (has_empty_field m))
                (map row_of (after_rule (scummvmOutputSplit s))).
Proof.
  intros s. split; [|apply slice_rows].
  apply Forall_forall. intros m Hm.
  destruct (slice_from_rows s m Hm) as (_ & _ & _ & H).
  now apply has_empty_field_false.
Qed.

(** C9 as stated fails: a line holding one space after the rule becomes a
    candidate whose three fields are empty once trimmed. *)
Lemma blank_row_is_kept :
  In (mkScummGameMatch (bytes " ") (bytes " ") (bytes " "))
     (scummvmOutputSlice sample_blank_row)
  /\ TrimSpace (GameID (mkScummGameMatch (bytes " ") (bytes " ") (bytes " ")))
     = []
  /\ extract sample_blank_row
     = inr [row_of (bytes loom_row);
            mkScummGameMatch (bytes " ") (bytes " ") (bytes " ")].
Proof.
  split; [|split].
  - vm_compute. right. left. reflexivity.
  - vm_compute. reflexivity.
  - vm_compute. reflexivity.
Qed.

(** C10. A non-empty line after the first rule line that the row pattern
    does not match is left unchanged by the three replacements, and a
    candidate whose three fields are all that line is appended. *)
Theorem unmatched_line_kept_verbatim :
  forall s line,
    In line (after_rule (scummvmOutputSplit s)) ->
    line <> [] ->
    MatchString matcher line = false ->
    row_of line = mkScummGameMatch line line line
    /\ In (mkScummGameMatch line line line) (scummvmOutputSlice s).
Proof.
  intros s line Hin Hne Hno.
  assert (Hrow : row_of line = mkScummGameMatch line line line)
    by now apply row_of_unmatched.
  split; [exact Hrow|].
  rewrite slice_rows. apply filter_In. split.
  - rewrite <- Hrow. now apply in_map.
  - rewrite <- Hrow, has_empty_field_row. now destruct line.
Qed.

Lemma unmatched_line_kept_verbatim_witness :
  row_of (bytes "Please report this")
  = mkScummGameMatch (bytes "Please report this") (bytes "Please report this")
                     (bytes "Please report this")
  /\ In (mkScummGameMatch (bytes "Please report this")
                          (bytes "Please report this")
                          (bytes "Please report this"))
        (scummvmOutputSlice sample_stray_line).
Proof.
  apply (unmatched_line_kept_verbatim sample_stray_line
           (bytes "Please report this")).
  - vm_compute. right. left. reflexivity.
  - discriminate.
  - vm_compute. reflexivity.
Defined.

(** * Further properties of the parser *)

(** ** Helper facts *)

Lemma rows_after_nil lines :
  rows_after lines = [] <-> forallb is_empty lines = true.
Proof.
  induction lines as [|l lines IH]; cbn [rows_after forallb]; [tauto|].
  rewrite has_empty_field_row.
  destruct (is_empty l); cbn [andb]; [exact IH|].
  split; discriminate.
Qed.

Lemma slice_nil s :
  scummvmOutputSlice s = []
  <-> forallb is_empty (after_rule (scummvmOutputSplit s)) = true.
Proof.
  unfold scummvmOutputSlice. rewrite rows_of_lines_after. apply rows_after_nil.
Qed.

Lemma disambiguate_picks Stem Base Similarity slice :
  slice <> [] ->
  exists w, In w slice
            /\ disambiguate Stem Base Similarity slice
               = Return (GameID w) (Description w).
Proof.
  intros Hne. destruct slice as [|a [|b rest]]; [congruence| |].
  - exists a. split; [now left|reflexivity].
  - rewrite disambiguate_many.
    pose proof (closestMatch_inv Stem Base Similarity (a :: b :: rest))
      as (_ & _ & _ & Hsel).
    destruct Hsel as [[-> _]|(c & Hc & _)].
    + exists a. split; [now left|reflexivity].
    + exists c. rewrite Hc. split; [|reflexivity].
      eapply nth_error_In; eauto.
Qed.

Lemma has_space_run_app t1 t2 :
  starts2 t2 = true -> has_space_run (t1 ++ t2) = true.
Proof.
  intros H. induction t1 as [|a t1 IH]; cbn [app].
  - destruct t2; cbn [has_space_run]; now rewrite H.
  - cbn [has_space_run]. rewrite IH. apply orb_true_r.
Qed.

Lemma is_sep_starts2 w rest : is_sep w = true -> starts2 (w ++ rest) = true.
Proof.
  intros H. apply is_sep_inv in H as (Hl & Hs).
  destruct w as [|a [|b w]]; cbn in Hl; try lia.
  cbn in Hs |- *. apply andb_true_iff in Hs as [-> Hs].
  apply andb_true_iff in Hs as [-> _]. reflexivity.
Qed.

(** A line without a run of two whitespace characters is not a row. *)
Lemma no_space_run_unmatched line :
  has_space_run line = false -> MatchString matcher line = false.
Proof.
  intros H. unfold MatchString.
  destruct (FindStringSubmatch matcher line) as [caps|] eqn:E; [|reflexivity].
  destruct (matcher_sound _ _ E)
    as (g1 & w1 & g2 & w2 & g3 & -> & _ & _ & Hw1 & _).
  rewrite has_space_run_app in H; [discriminate|].
  now apply is_sep_starts2.
Qed.

Lemma run_cls_sound cl p e caps s r :
  run (Cls cl :: p) e caps s = Some r ->
  exists a rest, s = a :: rest /\ cl a = true /\ run p e caps rest = Some r.
Proof.
  cbn [run]. destruct s as [|a s]; [discriminate|].
  destruct (cl a) eqn:E; [|discriminate]. eauto.
Qed.

Lemma dashes_no_space_run d t :
  forallb (only "-") d = true ->
  has_space_run (d ++ t) = has_space_run t.
Proof.
  induction d as [|c d IH]; intros H; [reflexivity|].
  cbn [forallb] in H. apply andb_true_iff in H as [Hc H].
  unfold only in Hc. apply Ascii.eqb_eq in Hc. subst c.
  cbn [app has_space_run]. rewrite (IH H).
  destruct (d ++ t); reflexivity.
Qed.

(** A rule line has its whitespace characters one at a time. *)
Lemma rule_line_shape line :
  MatchString lineMatcher line = true ->
  line <> [] /\ has_space_run line = false.
Proof.
  unfold MatchString, FindStringSubmatch, lineMatcher. cbn [bol atoms eol].
  destruct (run _ true [] line) as [r|] eqn:E; [intros _|discriminate].
  apply run_many_sound in E as (d1 & r1 & -> & Hl1 & Hd1 & E).
  apply run_cls_sound in E as (a & r2 & -> & Ha & E).
  apply run_many_sound in E as (d2 & r3 & -> & Hl2 & Hd2 & E).
  apply run_cls_sound in E as (b & r4 & -> & Hb & E).
  apply run_many_sound in E as (d3 & r5 & -> & Hl3 & Hd3 & E).
  cbn in E. destruct r5; [|discriminate].
  split; [destruct d1; [cbn in Hl1; lia|discriminate]|].
  rewrite dashes_no_space_run by assumption.
  destruct d2 as [|c2 d2]; [cbn in Hl2; lia|].
  destruct d3 as [|c3 d3]; [cbn in Hl3; lia|].
  cbn [forallb] in Hd2, Hd3.
  apply andb_true_iff in Hd2 as [Hc2 Hd2], Hd3 as [Hc3 Hd3].
  unfold only in Hc2, Hc3. apply Ascii.eqb_eq in Hc2, Hc3. subst c2 c3.
  change (has_space_run (a :: ("-"%char :: d2) ++ b :: ("-"%char :: d3) ++ []))
    with (space a && space "-"%char
          || has_space_run (("-"%char :: d2) ++ b :: ("-"%char :: d3) ++ [])).
  rewrite andb_false_r. cbn [orb].
  rewrite dashes_no_space_run by (cbn [forallb]; now rewrite Hd2).
  change (has_space_run (b :: ("-"%char :: d3) ++ []))
    with (space b && space "-"%char || has_space_run (("-"%char :: d3) ++ [])).
  rewrite andb_false_r. cbn [orb].
  rewrite dashes_no_space_run by (cbn [forallb]; now rewrite Hd3).
  reflexivity.
Qed.

Lemma kept_verbatim s line :
  In line (after_rule (scummvmOutputSplit s)) ->
  line <> [] -> MatchString matcher line = false ->
  In (mkScummGameMatch line line line) (scummvmOutputSlice s).
Proof.
  intros Hin Hne Hno.
  rewrite slice_rows. apply filter_In.
  rewrite <- (row_of_unmatched line Hno). split.
  - now apply in_map.
  - rewrite has_empty_field_row. now destruct line.
Qed.

Section ScanMore.
Variable Stem : str -> option str.
Variable Base : str -> str.
Variable Similarity : str -> str -> Levenshtein -> Q.

(** Candidates that do not beat the recorded score leave the state alone. *)
Lemma scan_no_better rest : forall i st,
  (forall m x, In m rest -> score Stem Base Similarity m = Some x ->
               (x <= snd st)%Q) ->
  scan Stem Base Similarity i rest st = st.
Proof.
  induction rest as [|m rest IH]; intros i st H; cbn [scan]; [reflexivity|].
  assert (Hm : scan_body Stem Base Similarity i m st = st).
  { rewrite scan_body_score.
    destruct (score Stem Base Similarity m) as [x|] eqn:E; [|reflexivity].
    destruct (Qgtb x (snd st)) eqn:Ex; [|reflexivity].
    apply Qgtb_true in Ex.
    specialize (H m x (or_introl eq_refl) E).
    exfalso. apply (Qlt_irrefl x). eapply Qle_lt_trans; eauto. }
  rewrite Hm. apply IH. intros m' x Hin. apply H. now right.
Qed.
End ScanMore.

(** ** What a call returns *)

(** X2. A successful call returns the identifier and description extracted
    from one non-empty line after the first rule line, and neither of the
    two strings is empty. *)
Theorem parse_returns_candidate :
  forall (Stem : str -> option str) (Base : str -> str)
         (Similarity : str -> str -> Levenshtein -> Q) s id desc,
    parseScummvmOutput Stem Base Similarity s = Return id desc ->
    exists line,
      In line (after_rule (scummvmOutputSplit s))
      /\ line <> []
      /\ id = GameID (row_of line) /\ desc = Description (row_of line)
      /\ id <> [] /\ desc <> [].
Proof.
  intros Stem Base Similarity s id desc H. unfold parseScummvmOutput in H.
  destruct (extract s) as [e|slice] eqn:E; [discriminate|].
  apply extract_inr in E as (_ & _ & Hs & Hne).
  destruct (disambiguate_picks Stem Base Similarity slice Hne) as (w & Hw & Hd).
  rewrite Hd in H. injection H as <- <-.
  rewrite <- Hs in Hw.
  destruct (slice_from_rows s w Hw) as (line & Hin & -> & Hf).
  exists line. destruct (has_empty_field_false _ Hf) as (H1 & H2 & _).
  repeat split; auto.
  rewrite has_empty_field_row in Hf. now destruct line.
Qed.

Lemma parse_returns_candidate_witness :
  exists line,
    In line (after_rule (scummvmOutputSplit sample_astro))
    /\ line <> []
    /\ bytes "sci:astrochicken" = GameID (row_of line)
    /\ bytes "Astro Chicken (DOS/English)" = Description (row_of line)
    /\ bytes "sci:astrochicken" <> []
    /\ bytes "Astro Chicken (DOS/English)" <> [].
Proof.
  apply (parse_returns_candidate stem_id (base_of backslash)
           strutil.Similarity sample_astro).
  vm_compute. reflexivity.
Defined.

Ltac settle_cases :=
  repeat split; intros;
  repeat match goal with
         | H : _ /\ _ |- _ => destruct H
         | H : exists _, _ |- _ => destruct H
         end;
  try congruence; eauto.

(** X3. The four outcomes of a call, by what the text holds: the sentinel
    gives [NotFound]; otherwise a missing header phrase gives
    [NoTableFound]; otherwise the call fails with [EmptyCandidateSet]
    exactly when every line after the first rule line is empty (none,
    when there is no rule line), and succeeds exactly when one is not. *)
Theorem parse_outcome_cases :
  forall (Stem : str -> option str) (Base : str -> str)
         (Similarity : str -> str -> Levenshtein -> Q) s,
    (parseScummvmOutput Stem Base Similarity s = Fail NotFound
     <-> strings.Contains s sentinel = true)
    /\ (parseScummvmOutput Stem Base Similarity s = Fail NoTableFound
        <-> strings.Contains s sentinel = false
            /\ MatchString headerMatcher s = false)
    /\ (parseScummvmOutput Stem Base Similarity s = Fail EmptyCandidateSet
        <-> strings.Contains s sentinel = false
            /\ MatchString headerMatcher s = true
            /\ forallb is_empty (after_rule (scummvmOutputSplit s)) = true)
    /\ ((exists id desc,
           parseScummvmOutput Stem Base Similarity s = Return id desc)
        <-> strings.Contains s sentinel = false
            /\ MatchString headerMatcher s = true
            /\ forallb is_empty (after_rule (scummvmOutputSplit s)) = false).
Proof.
  intros Stem Base Similarity s.
  pose proof (slice_nil s) as Hnil.
  unfold parseScummvmOutput, extract.
  destruct (strings.Contains s sentinel); [settle_cases|].
  destruct (MatchString headerMatcher s); cbn [negb]; [|settle_cases].
  destruct (scummvmOutputSlice s) as [|m ms] eqn:Es.
  - assert (Hall : forallb is_empty (after_rule (scummvmOutputSplit s)) = true)
      by now apply Hnil.
    rewrite Hall. settle_cases.
  - assert (Hall : forallb is_empty (after_rule (scummvmOutputSplit s)) = false).
    { destruct (forallb is_empty (after_rule (scummvmOutputSplit s)));
        [|reflexivity].
      destruct Hnil as [_ Hnil]. now specialize (Hnil eq_refl). }
    rewrite Hall.
    destruct (disambiguate_picks Stem Base Similarity (m :: ms))
      as (w & _ & ->); [discriminate|].
    settle_cases.
Qed.

(** ** The row pattern *)

(** X4. The row pattern of line 108 matches exactly the lines that are
    three non-empty pieces without a line feed, with a run of two or more
    whitespace characters between the first and the second and between
    the second and the third. *)
Theorem row_pattern_language :
  forall line,
    MatchString matcher line = true
    <-> exists g1 w1 g2 w2 g3,
          line = g1 ++ w1 ++ g2 ++ w2 ++ g3
          /\ (g1 <> [] /\ forallb dot g1 = true) /\ is_sep w1 = true
          /\ (g2 <> [] /\ forallb dot g2 = true) /\ is_sep w2 = true
          /\ (g3 <> [] /\ forallb dot g3 = true).
Proof.
  assert (Hlen : forall g : str, 1 <= length g <-> g <> []).
  { intros [|c g]; cbn; split; intros; try lia; congruence. }
  intros line. split.
  - unfold MatchString.
    destruct (FindStringSubmatch matcher line) as [caps|] eqn:E;
      [intros _|discriminate].
    destruct (matcher_sound _ _ E)
      as (g1 & w1 & g2 & w2 & g3 & -> & _ & [H1 D1] & Hw1 & [H2 D2] & Hw2
          & [H3 D3]).
    exists g1, w1, g2, w2, g3. rewrite Hlen in H1, H2, H3. tauto.
  - intros (g1 & w1 & g2 & w2 & g3 & -> & [H1 D1] & Hw1 & [H2 D2] & Hw2
            & [H3 D3]).
    rewrite <- Hlen in H1, H2, H3. now apply matcher_complete.
Qed.

(** X5. When the row pattern matches a line, the three fields taken from
    it are non-empty, hold no line feed and, with two runs of two or more
    whitespace characters between them, make up the whole line: no other
    character of the line is dropped. *)
Theorem row_fields_reassemble :
  forall line,
    MatchString matcher line = true ->
    exists w1 w2,
      is_sep w1 = true /\ is_sep w2 = true
      /\ line = GameID (row_of line) ++ w1 ++ Description (row_of line)
                ++ w2 ++ Directory (row_of line)
      /\ has_empty_field (row_of line) = false
      /\ forallb dot (GameID (row_of line)) = true
      /\ forallb dot (Description (row_of line)) = true
      /\ forallb dot (Directory (row_of line)) = true.
Proof.
  intros line. unfold MatchString.
  destruct (FindStringSubmatch matcher line) as [caps|] eqn:E;
    [intros _|discriminate].
  destruct (matcher_sound _ _ E)
    as (g1 & w1 & g2 & w2 & g3 & Hline & -> & [H1 D1] & Hw1 & [H2 D2] & Hw2
        & [H3 D3]).
  rewrite (row_of_matched _ _ _ _ E). cbn [GameID Description Directory].
  exists w1, w2. repeat split; auto.
  unfold has_empty_field. cbn [GameID Description Directory].
  destruct g1, g2, g3; cbn in H1, H2, H3; try lia. reflexivity.
Qed.

Lemma row_fields_reassemble_witness :
  exists w1 w2,
    is_sep w1 = true /\ is_sep w2 = true
    /\ bytes loom_row
       = GameID (row_of (bytes loom_row)) ++ w1
         ++ Description (row_of (bytes loom_row)) ++ w2
         ++ Directory (row_of (bytes loom_row))
    /\ has_empty_field (row_of (bytes loom_row)) = false
    /\ forallb dot (GameID (row_of (bytes loom_row))) = true
    /\ forallb dot (Description (row_of (bytes loom_row))) = true
    /\ forallb dot (Directory (row_of (bytes loom_row))) = true.
Proof.
  apply (row_fields_reassemble (bytes loom_row)).
  vm_compute. reflexivity.
Defined.

(** X6. A line in which no two whitespace characters stand in a row, such
    as a row whose columns are one space apart, is not split: each of the
    three fields is the whole line. *)
Theorem single_spaced_line_unsplit :
  forall line,
    has_space_run line = false ->
    row_of line = mkScummGameMatch line line line.
Proof.
  intros line H. apply row_of_unmatched. now apply no_space_run_unmatched.
Qed.

Lemma single_spaced_line_unsplit_witness :
  row_of sample_single_spaced
  = mkScummGameMatch sample_single_spaced sample_single_spaced
                     sample_single_spaced.
Proof.
  apply (single_spaced_line_unsplit sample_single_spaced).
  vm_compute. reflexivity.
Defined.

(** X7. Only the first rule line starts the table: a rule line met after
    it is a candidate like any other line, with its three fields equal to
    the rule line itself. *)
Theorem later_rule_line_is_candidate :
  forall s line,
    In line (after_rule (scummvmOutputSplit s)) ->
    MatchString lineMatcher line = true ->
    In (mkScummGameMatch line line line) (scummvmOutputSlice s).
Proof.
  intros s line Hin Hrule.
  destruct (rule_line_shape line Hrule) as [Hne Hrun].
  apply kept_verbatim; auto. now apply no_space_run_unmatched.
Qed.

Lemma later_rule_line_is_candidate_witness :
  In (mkScummGameMatch (bytes rule_line) (bytes rule_line) (bytes rule_line))
     (scummvmOutputSlice sample_two_tables).
Proof.
  apply (later_rule_line_is_candidate sample_two_tables (bytes rule_line)).
  - vm_compute. right. left. reflexivity.
  - vm_compute. reflexivity.
Defined.

(** ** The scan, whatever the scorer returns *)

(** X8. With two or more candidates, when no candidate is given a score
    above 0 (skipped, zero or negative), the candidate at index 0 is
    returned. *)
Theorem baseline_keeps_first :
  forall (Stem : str -> option str) (Base : str -> str)
         (Similarity : str -> str -> Levenshtein -> Q) s slice,
    extract s = inr slice -> 2 <= length slice ->
    (forall m x, In m slice -> score Stem Base Similarity m = Some x ->
                 (x <= 0)%Q) ->
    exists c0, nth_error slice 0 = Some c0
               /\ parseScummvmOutput Stem Base Similarity s
                  = Return (GameID c0) (Description c0).
Proof.
  intros Stem Base Similarity s slice Hex Hlen Hlow.
  assert (Hc : closestMatch Stem Base Similarity slice = (0, 0%Q)).
  { unfold closestMatch. apply scan_no_better. exact Hlow. }
  destruct slice as [|a [|b rest]]; cbn in Hlen; try lia.
  exists a. split; [reflexivity|].
  unfold parseScummvmOutput. rewrite Hex, disambiguate_many, Hc. reflexivity.
Qed.

Lemma baseline_keeps_first_witness :
  exists c0,
    nth_error (scummvmOutputSlice sample_strangers) 0 = Some c0
    /\ parseScummvmOutput stem_id (base_of backslash) unclamped
                          sample_strangers
       = Return (GameID c0) (Description c0).
Proof.
  apply (baseline_keeps_first stem_id (base_of backslash) unclamped
           sample_strangers).
  - vm_compute. reflexivity.
  - vm_compute. lia.
  - intros m x Hin Hs. vm_compute in Hin.
    destruct Hin as [<-|[<-|[]]]; vm_compute in Hs; injection Hs as <-;
      unfold Qle; cbn; lia.
Defined.

(** X9. With two or more candidates, when some candidate is given a score
    above 0, the candidate returned is the first one that carries the
    highest score given, and that score is above 0; nothing is assumed of
    the scorer. *)
Theorem positive_score_first_max :
  forall (Stem : str -> option str) (Base : str -> str)
         (Similarity : str -> str -> Levenshtein -> Q) s slice,
    extract s = inr slice -> 2 <= length slice ->
    (exists m x, In m slice /\ score Stem Base Similarity m = Some x
                 /\ (0 < x)%Q) ->
    exists k w x,
      nth_error slice k = Some w
      /\ score Stem Base Similarity w = Some x /\ (0 < x)%Q
      /\ parseScummvmOutput Stem Base Similarity s
         = Return (GameID w) (Description w)
      /\ (forall j c y, nth_error slice j = Some c ->
            score Stem Base Similarity c = Some y -> (y <= x)%Q)
      /\ (forall j c y, j < k -> nth_error slice j = Some c ->
            score Stem Base Similarity c = Some y -> (y < x)%Q).
Proof.
  intros Stem Base Similarity s slice Hex Hlen (m & x & Hm & Hsm & Hx).
  assert (Heff : forall c y, score Stem Base Similarity c = Some y ->
                             score_or_zero Stem Base Similarity c = y).
  { intros c y Hc. unfold score_or_zero. now rewrite Hc. }
  pose proof (closestMatch_inv Stem Base Similarity slice) as Hinv.
  destruct (closestMatch Stem Base Similarity slice) as [k q] eqn:Ecl.
  destruct Hinv as (Hq & Hall & Hbefore & Hsel). cbn [fst snd] in *.
  assert (Hxq : (x <= q)%Q) by (rewrite <- (Heff m x Hsm); now apply Hall).
  destruct Hsel as [[_ ->]|(w & Hw & Hs)].
  { exfalso. apply (Qlt_irrefl 0). eapply Qlt_le_trans; eauto. }
  exists k, w, q. repeat split; auto.
  - eapply Qlt_le_trans; eauto.
  - destruct slice as [|a [|b rest]]; cbn in Hlen; try lia.
    unfold parseScummvmOutput.
    rewrite Hex, disambiguate_many, Ecl. cbn [fst]. now rewrite Hw.
  - intros j c y Hc Hy. rewrite <- (Heff c y Hy).
    apply Hall. eapply nth_error_In; eauto.
  - intros j c y Hj Hc Hy. rewrite <- (Heff c y Hy). eapply Hbefore; eauto.
Qed.

Lemma positive_score_first_max_witness :
  exists k w x,
    nth_error (scummvmOutputSlice sample_astro) k = Some w
    /\ score stem_id (base_of backslash) strutil.Similarity w = Some x
    /\ (0 < x)%Q
    /\ scummer sample_astro = Return (GameID w) (Description w)
    /\ (forall j c y,
          nth_error (scummvmOutputSlice sample_astro) j = Some c ->
          score stem_id (base_of backslash) strutil.Similarity c = Some y ->
          (y <= x)%Q)
    /\ (forall j c y, j < k ->
          nth_error (scummvmOutputSlice sample_astro) j = Some c ->
          score stem_id (base_of backslash) strutil.Similarity c = Some y ->
          (y < x)%Q).
Proof.
  apply (positive_score_first_max stem_id (base_of backslash)
           strutil.Similarity sample_astro).
  - vm_compute. reflexivity.
  - vm_compute. lia.
  - exists (nth 1 (scummvmOutputSlice sample_astro) (row_of [])), (12 # 27)%Q.
    split; [vm_compute; right; left; reflexivity|].
    split; [vm_compute; reflexivity|reflexivity].
Defined.

(** ** The lines of the text *)

Lemma HasPrefix_inv p : forall s,
  strings.HasPrefix s p = true -> exists rest, s = p ++ rest.
Proof.
  induction p as [|c p IH]; intros s H; [exists s; reflexivity|].
  destruct s as [|a s]; [discriminate|]. cbn [strings.HasPrefix] in H.
  apply andb_true_iff in H as [Ha H]. apply Ascii.eqb_eq in Ha. subst a.
  destruct (IH s H) as (rest & ->). exists rest. reflexivity.
Qed.

Lemma HasPrefix_weaken p : forall s tail,
  strings.HasPrefix s p = true -> strings.HasPrefix (s ++ tail) p = true.
Proof.
  intros s tail H. destruct (HasPrefix_inv p s H) as (rest & ->).
  rewrite <- app_assoc. apply HasPrefix_app.
Qed.

Lemma Join_cons_char a piece pieces sep :
  strings.Join ((a :: piece) :: pieces) sep
  = a :: strings.Join (piece :: pieces) sep.
Proof. destruct pieces; reflexivity. Qed.

Lemma Join_head piece pieces sep :
  exists tail, strings.Join (piece :: pieces) sep = piece ++ tail.
Proof.
  destruct pieces as [|q pieces].
  - exists []. cbn. now rewrite app_nil_r.
  - eexists. reflexivity.
Qed.

Lemma split_from_step c0 sep' a s :
  strings.split_from (c0 :: sep') 0 (a :: s)
  = if strings.HasPrefix (a :: s) (c0 :: sep')
    then [] :: strings.split_from (c0 :: sep') (length sep') s
    else match strings.split_from (c0 :: sep') 0 s with
         | piece :: pieces => (a :: piece) :: pieces
         | [] => [[a]]
         end.
Proof.
  cbn [strings.split_from length]. now rewrite Nat.sub_succ, Nat.sub_0_r.
Qed.

Section SplitFacts.
Variable c0 : ascii.
Variable sep' : str.
Local Abbreviation sep := (c0 :: sep').

(** Joining the pieces of a split with the separator gives the text back,
    and no piece holds the separator. *)
Lemma split_from_spec n : forall s,
  length s <= n ->
  strings.Join (strings.split_from sep 0 s) sep = s
  /\ Forall (fun piece => strings.Contains piece sep = false)
            (strings.split_from sep 0 s).
Proof.
  induction n as [|n IH]; intros s Hn.
  - destruct s; [|cbn in Hn; lia]. cbn. split; [reflexivity|].
    repeat constructor.
  - destruct s as [|a s].
    { cbn. split; [reflexivity|]. repeat constructor. }
    cbn [length] in Hn. rewrite split_from_step.
    destruct (strings.HasPrefix (a :: s) sep) eqn:Ep.
    + destruct (HasPrefix_inv _ _ Ep) as (rest & Hs).
      injection Hs as -> ->. rewrite split_from_skip.
      destruct (IH rest) as [Hj Hf].
      { rewrite length_app in Hn. lia. }
      destruct (split_from_cons sep 0 rest) as (q & qs & Eq).
      rewrite Eq in Hj, Hf |- *. split.
      * change (strings.Join ([] :: q :: qs) sep)
          with (sep ++ strings.Join (q :: qs) sep).
        now rewrite Hj.
      * constructor; [reflexivity|exact Hf].
    + destruct (IH s) as [Hj Hf]; [lia|].
      destruct (split_from_cons sep 0 s) as (q & qs & Eq).
      rewrite Eq in Hj, Hf |- *. split.
      * rewrite Join_cons_char. f_equal. exact Hj.
      * apply Forall_cons_iff in Hf as [Hq Hqs]. constructor; [|exact Hqs].
        cbn [strings.Contains]. rewrite Hq, orb_false_r.
        destruct (strings.HasPrefix (a :: q) sep) eqn:Eaq; [|reflexivity].
        destruct (Join_head q qs sep) as (tail & Ht).
        rewrite <- Hj, Ht in Ep.
        change (a :: q ++ tail) with ((a :: q) ++ tail) in Ep.
        rewrite (HasPrefix_weaken _ _ tail Eaq) in Ep. discriminate.
Qed.
End SplitFacts.

Lemma eol_of_cases s : eol_of s = [CR; LF] \/ eol_of s = [LF].
Proof. unfold eol_of. destruct (strings.Contains s [CR; LF]); auto. Qed.

Lemma Contains_char_false c l :
  strings.Contains l [c] = false ->
  forallb (fun a => negb (Ascii.eqb a c)) l = true.
Proof.
  induction l as [|a l IH]; [reflexivity|].
  cbn [strings.Contains strings.HasPrefix forallb].
  replace (strings.HasPrefix l []) with true by (now destruct l).
  rewrite andb_true_r.
  intros H. apply orb_false_iff in H as [-> H]. cbn [negb andb]. auto.
Qed.

(** X10. The text is cut at its line terminators and nowhere else: the
    lines, joined again with the terminator found in the text (CR LF when
    the text holds one, LF otherwise), give the text back. *)
Theorem split_join_round_trip :
  forall s, strings.Join (scummvmOutputSplit s) (eol_of s) = s.
Proof.
  intros s. unfold scummvmOutputSplit, strings.Split.
  destruct (eol_of_cases s) as [-> | ->];
    apply (split_from_spec _ _ (length s) s (le_n _)).
Qed.

(** X11. No line handed to the row pattern holds the terminator found in
    the text; in a text without CR LF the lines hold no line feed at all,
    so every character of a line can be part of a field. *)
Theorem lines_hold_no_terminator :
  forall s,
    Forall (fun line => strings.Contains line (eol_of s) = false)
           (scummvmOutputSplit s)
    /\ (strings.Contains s [CR; LF] = false ->
        Forall (fun line => forallb dot line = true) (scummvmOutputSplit s)).
Proof.
  intros s.
  assert (H : Forall (fun line => strings.Contains line (eol_of s) = false)
                     (scummvmOutputSplit s)).
  { unfold scummvmOutputSplit, strings.Split.
    destruct (eol_of_cases s) as [-> | ->];
      apply (split_from_spec _ _ (length s) s (le_n _)). }
  split; [exact H|].
  intros Hs. unfold scummvmOutputSplit, eol_of in H |- *.
  rewrite Hs in H |- *.
  eapply Forall_impl; [|exact H].
  intros line Hl. now apply Contains_char_false.
Qed.

(** ** A terminator at the end of the text *)

Lemma skip_space_all w : forallb space w = true -> skip_space w = [].
Proof.
  induction w as [|b w IH]; [reflexivity|]. cbn [forallb skip_space].
  intros H. apply andb_true_iff in H as [-> H]. auto.
Qed.

Lemma not_ordinary_space c : ordinary c = false -> space c = true.
Proof.
  unfold ordinary. intros H. apply andb_false_iff in H as [H|H];
    apply negb_false_iff, Ascii.eqb_eq in H; subst c; reflexivity.
Qed.

Lemma eol_chars_space w :
  forallb (fun c => negb (ordinary c)) w = true -> forallb space w = true.
Proof.
  induction w as [|b w IH]; [reflexivity|]. cbn [forallb]. intros H.
  apply andb_true_iff in H as [Hb H]. apply negb_true_iff in Hb.
  now rewrite (not_ordinary_space b Hb), IH.
Qed.

Section TrailingSpace.
Variable w : str.
Hypothesis w_eol : forallb (fun c => negb (ordinary c)) w = true.
Variable caps : list str.
Local Abbreviation blind := (ws_blind w caps).

Lemma ws_blind_nil : blind [].
Proof. intros u. reflexivity. Qed.

Lemma ws_blind_lit c p : ordinary c = true -> blind p -> blind (Lit c :: p).
Proof.
  intros Hc Hp [|a u]; cbn [app run].
  - destruct w as [|b w']; [reflexivity|].
    cbn [forallb] in w_eol. apply andb_true_iff in w_eol as [Hb _].
    apply negb_true_iff in Hb.
    destruct (Ascii.eqb b c) eqn:E; [|reflexivity].
    apply Ascii.eqb_eq in E. congruence.
  - destruct (Ascii.eqb a c); [apply Hp|reflexivity].
Qed.

Lemma ws_blind_lits word p :
  one_line word = true -> blind p -> blind (map Lit word ++ p).
Proof.
  induction word as [|c word IH]; intros Hw Hp; [exact Hp|].
  cbn [one_line forallb] in Hw. apply andb_true_iff in Hw as [Hc Hw].
  cbn [map app]. apply ws_blind_lit; auto.
Qed.

Lemma ws_blind_skip c p u :
  blind (Lit c :: p) ->
  run (Lit c :: p) false caps (skip_space (u ++ w))
  = run (Lit c :: p) false caps (skip_space u).
Proof.
  intros Hp. induction u as [|a u IH]; cbn [app].
  - now rewrite (skip_space_all w (eol_chars_space w w_eol)).
  - cbn [skip_space]. destruct (space a); [exact IH|].
    apply (Hp (a :: u)).
Qed.

Lemma ws_blind_spaces c p :
  space c = false -> blind (Lit c :: p) ->
  blind (Many space 1 Greedy :: Lit c :: p).
Proof.
  intros Hc Hp u. rewrite !run_spaces_lit by assumption.
  destruct u as [|a u]; cbn [app].
  - pose proof (eol_chars_space w w_eol) as Hs.
    destruct w as [|b w']; [reflexivity|].
    cbn [forallb] in Hs. apply andb_true_iff in Hs as [-> Hw'].
    now rewrite (skip_space_all w' Hw').
  - destruct (space a); [|reflexivity]. now apply ws_blind_skip.
Qed.
End TrailingSpace.

Lemma headerMatcher_ws_blind w :
  forallb (fun c => negb (ordinary c)) w = true ->
  ws_blind w [] (atoms headerMatcher).
Proof.
  intros Hw.
  change (atoms headerMatcher) with
    (map Lit (bytes "GameID")
       ++ Many space 1 Greedy :: Lit "D"
       :: map Lit (bytes "escription")
       ++ Many space 1 Greedy :: Lit "F"
       :: map Lit (bytes "ull Path") ++ []).
  apply ws_blind_lits; [assumption|reflexivity|].
  apply ws_blind_spaces; [assumption|reflexivity|].
  apply ws_blind_lit; [assumption|reflexivity|].
  apply ws_blind_lits; [assumption|reflexivity|].
  apply ws_blind_spaces; [assumption|reflexivity|].
  apply ws_blind_lit; [assumption|reflexivity|].
  apply ws_blind_lits; [assumption|reflexivity|].
  apply ws_blind_nil.
Qed.

Lemma header_not_in_space w :
  forallb space w = true -> find_from headerMatcher w = None.
Proof.
  induction w as [|b w IH]; intros Hw; [reflexivity|].
  cbn [forallb] in Hw. apply andb_true_iff in Hw as [Hb Hw].
  cbn [find_from]. rewrite (IH Hw).
  change (atoms headerMatcher)
    with (Lit "G" :: tl (atoms headerMatcher)).
  cbn [run]. destruct (Ascii.eqb b "G") eqn:E; [|reflexivity].
  apply Ascii.eqb_eq in E. subst b. discriminate.
Qed.

Lemma header_trailing_space t w :
  forallb (fun c => negb (ordinary c)) w = true ->
  MatchString headerMatcher (t ++ w) = MatchString headerMatcher t.
Proof.
  intros Hw. unfold MatchString, FindStringSubmatch.
  change (bol headerMatcher) with false. cbn iota.
  enough (find_from headerMatcher (t ++ w) = find_from headerMatcher t) as ->
      by reflexivity.
  induction t as [|a t IH].
  - cbn [app]. now rewrite header_not_in_space by now apply eol_chars_space.
  - pose proof (headerMatcher_ws_blind w Hw (a :: t)) as Hb.
    cbn [app] in Hb.
    cbn [app find_from]. change (eol headerMatcher) with false.
    rewrite Hb, IH. reflexivity.
Qed.

Lemma HasPrefix_trailing sub w :
  one_line sub = true -> forallb (fun c => negb (ordinary c)) w = true ->
  forall t, strings.HasPrefix (t ++ w) sub = strings.HasPrefix t sub.
Proof.
  intros Hsub Hw t. revert sub Hsub.
  induction t as [|a t IH]; intros [|x sub] Hsub; cbn [app].
  - now destruct w.
  - cbn [one_line forallb] in Hsub. apply andb_true_iff in Hsub as [Hx _].
    destruct w as [|b w']; [reflexivity|].
    cbn [forallb] in Hw. apply andb_true_iff in Hw as [Hb _].
    apply negb_true_iff in Hb. cbn [strings.HasPrefix].
    destruct (Ascii.eqb b x) eqn:E; [|reflexivity].
    apply Ascii.eqb_eq in E. congruence.
  - reflexivity.
  - cbn [one_line forallb] in Hsub. apply andb_true_iff in Hsub as [_ Hsub].
    cbn [strings.HasPrefix]. now rewrite IH.
Qed.

Lemma Contains_trailing sub w :
  one_line sub = true -> sub <> [] ->
  forallb (fun c => negb (ordinary c)) w = true ->
  forall t, strings.Contains (t ++ w) sub = strings.Contains t sub.
Proof.
  intros Hsub Hne Hw.
  assert (Hw0 : forall w', forallb (fun c => negb (ordinary c)) w' = true ->
                           strings.Contains w' sub = false).
  { induction w' as [|b w' IH]; intros Hw'.
    - destruct sub; [congruence|reflexivity].
    - cbn [strings.Contains].
      pose proof (HasPrefix_trailing sub (b :: w') Hsub Hw' []) as Hp.
      cbn [app] in Hp. rewrite Hp.
      cbn [forallb] in Hw'. apply andb_true_iff in Hw' as [_ Hw'].
      rewrite (IH Hw'). destruct sub; [congruence|reflexivity]. }
  induction t as [|a t IH].
  - cbn [app]. rewrite (Hw0 w Hw). destruct sub; [congruence|reflexivity].
  - pose proof (HasPrefix_trailing sub w Hsub Hw (a :: t)) as Hp.
    cbn [app] in Hp. cbn [app strings.Contains].
    rewrite Hp, IH. reflexivity.
Qed.

Lemma Join_snoc_empty ls sep :
  ls <> [] -> strings.Join (ls ++ [[]]) sep = strings.Join ls sep ++ sep.
Proof.
  induction ls as [|e ls IH]; intros Hne; [congruence|].
  destruct ls as [|e2 ls].
  - cbn. now rewrite app_nil_r.
  - change (strings.Join ((e :: e2 :: ls) ++ [[]]) sep)
      with (e ++ sep ++ strings.Join ((e2 :: ls) ++ [[]]) sep).
    rewrite IH by discriminate.
    change (strings.Join (e :: e2 :: ls) sep)
      with (e ++ sep ++ strings.Join (e2 :: ls) sep).
    now rewrite <- !app_assoc.
Qed.

Lemma rows_after_snoc_empty ls : rows_after (ls ++ [[]]) = rows_after ls.
Proof.
  rewrite !rows_after_filter, map_app, filter_app. cbn. apply app_nil_r.
Qed.

Lemma rows_of_lines_snoc_empty ls :
  rows_of_lines (ls ++ [[]]) = rows_of_lines ls.
Proof.
  induction ls as [|l ls IH]; [reflexivity|].
  cbn [app rows_of_lines].
  destruct (MatchString lineMatcher l); [apply rows_after_snoc_empty|exact IH].
Qed.

Lemma one_line_snoc_empty ls :
  forallb one_line ls = true -> forallb one_line (ls ++ [[]]) = true.
Proof. intros H. rewrite forallb_app, H. reflexivity. Qed.

Lemma split_joined ls sep :
  sep = [LF] \/ sep = [CR; LF] ->
  ls <> [] -> forallb one_line ls = true ->
  scummvmOutputSplit (strings.Join ls sep) = ls.
Proof.
  intros [-> | ->] Hne Hls; [now apply split_lf_joined|].
  destruct ls as [|e [|e2 ls]]; [congruence| |].
  - apply (split_lf_joined [e]); auto.
  - now apply split_crlf_joined.
Qed.

(** X12. A line terminator at the very end of the text changes nothing:
    for lines that hold no carriage return and no line feed, joined with
    LF or with CR LF, the text with one more terminator after its last
    line gives the same candidates and the same result. *)
Theorem trailing_terminator_ignored :
  forall (Stem : str -> option str) (Base : str -> str)
         (Similarity : str -> str -> Levenshtein -> Q) lines sep,
    sep = [LF] \/ sep = [CR; LF] ->
    lines <> [] -> forallb one_line lines = true ->
    scummvmOutputSlice (strings.Join lines sep ++ sep)
    = scummvmOutputSlice (strings.Join lines sep)
    /\ parseScummvmOutput Stem Base Similarity (strings.Join lines sep ++ sep)
       = parseScummvmOutput Stem Base Similarity (strings.Join lines sep).
Proof.
  intros Stem Base Similarity lines sep Hsep Hne Hls.
  assert (Hslice : scummvmOutputSlice (strings.Join lines sep ++ sep)
                   = scummvmOutputSlice (strings.Join lines sep)).
  { unfold scummvmOutputSlice.
    rewrite <- Join_snoc_empty by assumption.
    rewrite !split_joined; auto using one_line_snoc_empty.
    - apply rows_of_lines_snoc_empty.
    - destruct lines; discriminate. }
  split; [exact Hslice|].
  assert (Hw : forallb (fun c => negb (ordinary c)) sep = true)
    by (destruct Hsep as [-> | ->]; reflexivity).
  unfold parseScummvmOutput, extract.
  rewrite (Contains_trailing sentinel sep eq_refl) by (discriminate || exact Hw).
  rewrite header_trailing_space by exact Hw.
  now rewrite Hslice.
Qed.

Lemma trailing_terminator_ignored_witness :
  scummvmOutputSlice (strings.Join astro_lines [CR; LF] ++ [CR; LF])
  = scummvmOutputSlice (strings.Join astro_lines [CR; LF])
  /\ scummer (strings.Join astro_lines [CR; LF] ++ [CR; LF])
     = scummer (strings.Join astro_lines [CR; LF]).
Proof.
  apply (trailing_terminator_ignored stem_id (base_of backslash)
           strutil.Similarity astro_lines [CR; LF]).
  - right. reflexivity.
  - discriminate.
  - vm_compute. reflexivity.
Defined.

(** * Properties of the program around the parser *)

Lemma parse_never_panics_aux Stem Base Similarity s :
  parseScummvmOutput Stem Base Similarity s = Panic -> False.
Proof.
  unfold parseScummvmOutput.
  destruct (extract s) as [e|slice] eqn:E; [discriminate|].
  apply extract_inr in E as (_ & _ & _ & Hne).
  destruct (disambiguate_picks Stem Base Similarity slice Hne) as (m & _ & ->).
  discriminate.
Qed.

Section ProgramFacts.

Variable World : Type.
Variable Err : Type.
Variable File : Type.
Variable ErrorText : Err -> str.
Variable IsNotExist : Err -> bool.
Variable os_Stat : str -> World -> option FileInfo * option Err * World.
Variable cmd_Run : str -> list str -> World -> str * option Err * World.
Variable os_ReadDir : str -> World -> list DirEntry * option Err * World.
Variable filepath_Join : str -> str -> str.
Variable json_MarshalIndent : list ScummGameMatch -> str * option Err.
Variable ioutil_WriteFile : str -> str -> World -> option Err * World.
Variable os_Create : str -> World -> (Err + File) * World.
Variable File_WriteString : File -> str -> World -> option Err * World.
Variable File_Close : File -> World -> World.
Variable Stem : str -> option str.
Variable Base : str -> str.
Variable Similarity : str -> str -> Levenshtein -> Q.

Local Abbreviation state := (state World File).
Local Abbreviation M := (M World File).
Local Abbreviation parse := (parseScummvmOutput Stem Base Similarity).
Local Abbreviation execute := (@executeScummvmBinary World Err File cmd_Run).
Local Abbreviation check := (@check_argument World Err File IsNotExist os_Stat).
Local Abbreviation listing :=
  (@getScummvmDataFileDirectories World Err File os_ReadDir).
Local Abbreviation detect :=
  (@detect_loop World Err File ErrorText cmd_Run filepath_Join
                Stem Base Similarity).
Local Abbreviation report :=
  (@write_report World Err File ErrorText json_MarshalIndent ioutil_WriteFile).
Local Abbreviation markers :=
  (@write_markers World Err File ErrorText os_Create File_WriteString).
Local Abbreviation whole_run :=
  (@run_main World Err File ErrorText IsNotExist os_Stat cmd_Run os_ReadDir
             filepath_Join json_MarshalIndent ioutil_WriteFile os_Create
             File_WriteString File_Close Stem Base Similarity).
Local Abbreviation program :=
  (@main World Err File ErrorText IsNotExist os_Stat cmd_Run os_ReadDir
         filepath_Join json_MarshalIndent ioutil_WriteFile os_Create
         File_WriteString Stem Base Similarity).

(** [m] leaves the deferred calls alone and only adds to the log, entries
    that satisfy [K]. *)
Definition adds {A : Type} (K : event -> Prop) (m : M A) : Prop :=
  forall st,
    deferred (final_state (m st)) = deferred st
    /\ exists added, log (final_state (m st)) = log st ++ added
                     /\ Forall K added.

Lemma adds_ret {A : Type} K (a : A) : adds K (ret a).
Proof. intros st. split; [reflexivity|]. exists []. now rewrite app_nil_r. Qed.

Lemma adds_exit {A : Type} K : adds K (exit : M A).
Proof. intros st. split; [reflexivity|]. exists []. now rewrite app_nil_r. Qed.

Lemma adds_panic {A : Type} K : adds K (panic : M A).
Proof. intros st. split; [reflexivity|]. exists []. now rewrite app_nil_r. Qed.

Lemma adds_emit (K : event -> Prop) e : K e -> adds K (emit e).
Proof.
  intros He st. split; [reflexivity|]. exists [e]. split; [reflexivity|].
  now constructor.
Qed.

Lemma adds_call {A : Type} K (f : World -> A * World) : adds K (call f).
Proof.
  intros st. unfold call. destruct (f (world st)) as [a w]. cbn.
  split; [reflexivity|]. exists []. now rewrite app_nil_r.
Qed.

Lemma adds_bind {A B : Type} K (m : M A) (k : A -> M B) :
  adds K m -> (forall a, adds K (k a)) -> adds K (bind m k).
Proof.
  intros Hm Hk st. unfold bind. specialize (Hm st).
  destruct (m st) as [a st'|st'|st']; cbn [final_state] in Hm |- *;
    try exact Hm.
  destruct Hm as (Hd & added & Hl & Hf).
  destruct (Hk a st') as (Hd' & added' & Hl' & Hf').
  split; [congruence|]. exists (added ++ added').
  rewrite Hl', Hl, app_assoc. split; [reflexivity|].
  apply Forall_app. auto.
Qed.

Lemma adds_weaken {A : Type} (K K' : event -> Prop) (m : M A) :
  (forall e, K e -> K' e) -> adds K m -> adds K' m.
Proof.
  intros HK Hm st. destruct (Hm st) as (Hd & added & Hl & Hf).
  split; [exact Hd|]. exists added. split; [exact Hl|].
  eapply Forall_impl; eauto.
Qed.

Lemma adds_Println K text : K (Stdout (text ++ [LF])) -> adds K (Println text).
Proof. apply adds_emit. Qed.

(** ** The pieces of [main] *)

Lemma execute_result binary args st :
  exists output err w,
    execute binary args st
    = Go (output, err)
         (mkState w (log st ++ [Ran binary args output (is_some err)])
                  (deferred st)).
Proof.
  unfold executeScummvmBinary, bind, call, emit, ret.
  destruct (cmd_Run binary args (world st)) as [[output err] w].
  exists output, err, w. cbn. destruct err; reflexivity.
Qed.

Lemma check_adds path message : adds (fun e => is_stdout e = true) (check path message).
Proof.
  unfold check_argument. apply adds_bind; [apply adds_call|].
  intros [f err]. cbn [fst snd].
  destruct err as [err|]; [|apply adds_ret].
  destruct (IsNotExist err); [|apply adds_ret].
  destruct f as [f|]; [|apply adds_panic].
  destruct (info_IsDir f); [|apply adds_ret].
  apply adds_bind; [now apply adds_Println|]. intros _. apply adds_exit.
Qed.

Lemma listing_result dir st :
  exists r w, listing dir st = Go r (mkState w (log st) (deferred st)).
Proof.
  unfold getScummvmDataFileDirectories, bind, call, ret.
  destruct (os_ReadDir dir (world st)) as [[files err] w]. cbn.
  destruct err; eauto.
Qed.

Lemma report_adds name entries :
  adds (fun e => is_stdout e = true \/ exists data f, e = Wrote name data f)
       (report name entries).
Proof.
  unfold write_report.
  destruct (json_MarshalIndent entries) as [json [err|]].
  - apply adds_bind; [apply adds_Println; now left|].
    intros _. apply adds_exit.
  - apply adds_bind; [apply adds_call|]. intros e.
    apply adds_bind; [apply adds_emit; right; eauto|]. intros _.
    destruct e; [|apply adds_ret].
    apply adds_bind; [apply adds_Println; now left|].
    intros _. apply adds_exit.
Qed.

Lemma directories_of_filter files : forall acc,
  directories_of files acc
  = acc ++ map entry_Name (filter entry_IsDir files).
Proof.
  induction files as [|file files IH]; intros acc; cbn [directories_of filter].
  - now rewrite app_nil_r.
  - destruct (entry_IsDir file); rewrite IH; [|reflexivity].
    cbn [map]. now rewrite <- app_assoc.
Qed.

Lemma parse_return_nonempty s id desc :
  parse s = Return id desc -> id <> [] /\ desc <> [].
Proof.
  intros H. unfold parseScummvmOutput in H.
  destruct (extract s) as [e|slice] eqn:E; [discriminate|].
  apply extract_inr in E as (_ & _ & Hs & Hne).
  destruct (disambiguate_picks Stem Base Similarity slice Hne) as (m & Hm & Hd).
  rewrite Hd in H. injection H as <- <-. rewrite <- Hs in Hm.
  destruct (slice_from_rows s m Hm) as (_ & _ & _ & Hf).
  destruct (has_empty_field_false _ Hf) as (H1 & H2 & _). auto.
Qed.

(** What the detection loop returns and logs. *)
Lemma detect_spec binary data : forall dirs succ errs st,
  exists succ' errs' added w,
    detect binary data dirs succ errs st
    = Go (succ ++ succ', errs ++ errs')
         (mkState w (log st ++ added) (deferred st))
    /\ length succ' + length errs' = length dirs
    /\ Permutation (map Directory succ' ++ map Directory errs')
                   (map (filepath_Join data) dirs)
    /\ Forall (fun m => GameID m = unknown) errs'
    /\ Forall (fun m => exists output,
                   In (detection binary (Directory m) output) added
                   /\ parse output = Return (GameID m) (Description m))
              succ'
    /\ Forall (fun e => is_stdout e = true
                        \/ exists path output f,
                             e = Ran binary
                                     [bytes "--detect"; bytes "--path=" ++ path]
                                     output f)
              added.
Proof.
  induction dirs as [|d dirs IH]; intros succ errs st.
  - exists [], [], [], (world st). cbn [detect_loop ret].
    rewrite !app_nil_r. destruct st. repeat split; constructor.
  - cbn [detect_loop]. unfold bind at 1. unfold Printf, emit at 1.
    set (joined := filepath_Join data d).
    set (st1 := mkState _ _ _).
    unfold bind at 1.
    destruct (execute_result binary
                [bytes "--detect"; bytes "--path=" ++ joined] st1)
      as (output & err & w1 & ->).
    cbn [fst snd]. subst st1. cbn [log deferred world].
    set (ran := Ran binary _ output (is_some err)).
    assert (Hran : is_stdout ran = true
                   \/ exists path output0 f,
                        ran = Ran binary
                                  [bytes "--detect"; bytes "--path=" ++ path]
                                  output0 f)
      by (right; unfold ran; eauto).
    destruct err as [err|].
    + unfold bind at 1. unfold Printf, emit at 1. cbn [log deferred world].
      destruct (IH succ
                  (errs ++ [mkScummGameMatch unknown (ErrorText err) joined])
                  (mkState w1
                     (((log st ++ [Stdout (joined ++ bytes "... ")]) ++ [ran])
                        ++ [Stdout (cross_mark ++ [LF])]) (deferred st)))
        as (succ' & errs' & added & w & -> & Hlen & Hperm & Hbad & Hgood & Hk).
      exists succ', (mkScummGameMatch unknown (ErrorText err) joined :: errs'),
        ([Stdout (joined ++ bytes "... "); ran; Stdout (cross_mark ++ [LF])]
           ++ added), w.
      cbn [log deferred]. rewrite <- !app_assoc. cbn [app].
      repeat split.
      * cbn [length]. lia.
      * cbn [map]. apply Permutation_sym, Permutation_cons_app.
        now apply Permutation_sym.
      * constructor; [reflexivity|exact Hbad].
      * eapply Forall_impl; [|exact Hgood].
        intros m (o & Ho & Hp). exists o. split; [|exact Hp].
        right. right. now right.
      * constructor; [now left|]. constructor; [exact Hran|].
        constructor; [now left|exact Hk].
    + destruct (parse output) as [id desc|perr|] eqn:Ep.
      * unfold bind at 1. unfold Printf, emit at 1. cbn [log deferred world].
        destruct (IH (succ ++ [mkScummGameMatch id desc joined]) errs
                    (mkState w1
                       (((log st ++ [Stdout (joined ++ bytes "... ")]) ++ [ran])
                          ++ [Stdout (check_mark ++ [LF])]) (deferred st)))
          as (succ' & errs' & added & w & -> & Hlen & Hperm & Hbad & Hgood & Hk).
        exists (mkScummGameMatch id desc joined :: succ'), errs',
          ([Stdout (joined ++ bytes "... "); ran; Stdout (check_mark ++ [LF])]
             ++ added), w.
        cbn [log deferred]. rewrite <- !app_assoc. cbn [app].
        repeat split.
        -- cbn [length]. lia.
        -- cbn [map app]. now constructor.
        -- exact Hbad.
        -- constructor.
           ++ exists output. cbn [Directory GameID Description].
              split; [right; left; reflexivity|exact Ep].
           ++ eapply Forall_impl; [|exact Hgood].
              intros m (o & Ho & Hp). exists o. split; [|exact Hp].
              right. right. now right.
        -- constructor; [now left|]. constructor; [exact Hran|].
        constructor; [now left|exact Hk].
      * unfold bind at 1. unfold Printf, emit at 1. cbn [log deferred world].
        destruct (IH succ
                    (errs ++ [mkScummGameMatch unknown (parse_error_text perr)
                                               joined])
                    (mkState w1
                       (((log st ++ [Stdout (joined ++ bytes "... ")]) ++ [ran])
                          ++ [Stdout (cross_mark ++ [LF])]) (deferred st)))
          as (succ' & errs' & added & w & -> & Hlen & Hperm & Hbad & Hgood & Hk).
        exists succ',
          (mkScummGameMatch unknown (parse_error_text perr) joined :: errs'),
          ([Stdout (joined ++ bytes "... "); ran; Stdout (cross_mark ++ [LF])]
             ++ added), w.
        cbn [log deferred]. rewrite <- !app_assoc. cbn [app].
        repeat split.
        -- cbn [length]. lia.
        -- cbn [map]. apply Permutation_sym, Permutation_cons_app.
           now apply Permutation_sym.
        -- constructor; [reflexivity|exact Hbad].
        -- eapply Forall_impl; [|exact Hgood].
           intros m (o & Ho & Hp). exists o. split; [|exact Hp].
           right. right. now right.
        -- constructor; [now left|]. constructor; [exact Hran|].
        constructor; [now left|exact Hk].
      * exfalso. exact (parse_never_panics_aux Stem Base Similarity output Ep).
Qed.

(** [m] only adds to the log, entries that satisfy [K] and none that
    closes a file, and defers the closing of exactly the files it
    created. *)
Definition grows {A : Type} (K : event -> Prop) (m : M A) : Prop :=
  forall st,
    exists added,
      log (final_state (m st)) = log st ++ added
      /\ Forall K added
      /\ map snd (deferred (final_state (m st)))
         = rev (created_files added) ++ map snd (deferred st)
      /\ closed_files added = [].

Lemma created_files_app l1 l2 :
  created_files (l1 ++ l2) = created_files l1 ++ created_files l2.
Proof. apply flat_map_app. Qed.

Lemma closed_files_app l1 l2 :
  closed_files (l1 ++ l2) = closed_files l1 ++ closed_files l2.
Proof. apply flat_map_app. Qed.

Lemma no_files (K : event -> Prop) added :
  (forall e, K e -> (forall n f, e <> Created n f) /\ is_closed e = false) ->
  Forall K added -> created_files added = [] /\ closed_files added = [].
Proof.
  intros HK. induction 1 as [|e l He _ [IH1 IH2]]; [split; reflexivity|].
  destruct (HK e He) as [Hc Hcl].
  unfold created_files, closed_files in *. cbn [flat_map].
  rewrite IH1, IH2. destruct e; try (split; reflexivity).
  - exfalso. eapply Hc. reflexivity.
  - discriminate.
Qed.

Lemma adds_grows {A : Type} (K : event -> Prop) (m : M A) :
  (forall e, K e -> (forall n f, e <> Created n f) /\ is_closed e = false) ->
  adds K m -> grows K m.
Proof.
  intros HK Hm st. destruct (Hm st) as (Hd & added & Hl & Hf).
  exists added. destruct (no_files K added HK Hf) as [-> ->].
  rewrite Hd. repeat split; auto.
Qed.

Lemma grows_bind {A B : Type} K (m : M A) (k : A -> M B) :
  grows K m -> (forall a, grows K (k a)) -> grows K (bind m k).
Proof.
  intros Hm Hk st. unfold bind. specialize (Hm st).
  destruct (m st) as [a st'|st'|st']; cbn [final_state] in Hm |- *;
    try exact Hm.
  destruct Hm as (added & Hl & Hf & Hd & Hc).
  destruct (Hk a st') as (added' & Hl' & Hf' & Hd' & Hc').
  exists (added ++ added').
  rewrite Hl', Hl, app_assoc, Hd', Hd, created_files_app, closed_files_app.
  rewrite Hc, Hc', rev_app_distr, app_assoc.
  repeat split; auto. apply Forall_app. auto.
Qed.

Lemma grows_weaken {A : Type} (K K' : event -> Prop) (m : M A) :
  (forall e, K e -> K' e) -> grows K m -> grows K' m.
Proof.
  intros HK Hm st. destruct (Hm st) as (added & Hl & Hf & Hd & Hc).
  exists added. repeat split; auto. eapply Forall_impl; eauto.
Qed.

(** The entries [markers] may log for the success list [succ]. *)
Definition marker_entry (succ : list ScummGameMatch) (e : event) : Prop :=
  is_stdout e = true
  \/ exists m f,
       In m succ
       /\ (e = Created (Directory m ++ bytes ".scummvm") f
           \/ e = WroteString (Directory m ++ bytes ".scummvm") (GameID m) f).

Lemma marker_entry_more m succ e :
  marker_entry succ e -> marker_entry (m :: succ) e.
Proof.
  intros [H|(m' & f & Hin & H)]; [now left|].
  right. exists m', f. split; [now right|exact H].
Qed.

Lemma markers_step m succ w0 l0 d0 :
  markers (m :: succ) (mkState w0 l0 d0)
  = let name := Directory m ++ bytes ".scummvm" in
    match os_Create name w0 with
    | (inl err, w) =>
        Exit (mkState w ((l0 ++ [Created name true])
                           ++ [Stdout (ErrorText err ++ [LF])]) d0)
    | (inr file, w) =>
        match File_WriteString file (GameID m) w with
        | (Some err, w') =>
            Exit (mkState w'
                          (((l0 ++ [Created name false])
                              ++ [WroteString name (GameID m) true])
                             ++ [Stdout (ErrorText err ++ [LF])])
                          ((file, name) :: d0))
        | (None, w') =>
            markers succ
                    (mkState w'
                             ((l0 ++ [Created name false])
                                ++ [WroteString name (GameID m) false])
                             ((file, name) :: d0))
        end
    end.
Proof.
  cbn [write_markers]. unfold bind at 1. unfold call at 1. cbn [world].
  destruct (os_Create (Directory m ++ bytes ".scummvm") w0) as [[err|file] w];
    [reflexivity|].
  unfold bind at 1. unfold emit at 1. unfold bind at 1. unfold defer_Close at 1.
  unfold bind at 1. unfold call at 1. cbn [world log deferred].
  destruct (File_WriteString file (GameID m) w) as [[err|] w']; reflexivity.
Qed.

Lemma markers_grows : forall succ, grows (marker_entry succ) (markers succ).
Proof.
  induction succ as [|m succ IH]; intros st.
  - exists []. cbn. rewrite app_nil_r. repeat split. constructor.
  - destruct st as [w0 l0 d0]. rewrite markers_step. cbv zeta.
    set (name := Directory m ++ bytes ".scummvm").
    assert (Hc : forall f, marker_entry (m :: succ) (Created name f))
      by (intros f; right; exists m, f; split; [now left|now left]).
    assert (Hw : forall f,
               marker_entry (m :: succ) (WroteString name (GameID m) f))
      by (intros f; right; exists m, f; split; [now left|now right]).
    destruct (os_Create name w0) as [[err|file] w].
    + cbn [final_state log deferred].
      exists [Created name true; Stdout (ErrorText err ++ [LF])].
      rewrite <- app_assoc. repeat split.
      constructor; [apply Hc|]. constructor; [now left|constructor].
    + destruct (File_WriteString file (GameID m) w) as [[err|] w'].
      * cbn [final_state log deferred].
        exists [Created name false; WroteString name (GameID m) true;
                Stdout (ErrorText err ++ [LF])].
        rewrite <- !app_assoc. repeat split.
        constructor; [apply Hc|]. constructor; [apply Hw|].
        constructor; [now left|constructor].
      * destruct (IH (mkState w'
                        ((l0 ++ [Created name false])
                           ++ [WroteString name (GameID m) false])
                        ((file, name) :: d0)))
          as (added & Hl & Hf & Hd & Hcl).
        exists ([Created name false; WroteString name (GameID m) false]
                  ++ added).
        rewrite Hl, Hd. cbn [log deferred map snd].
        rewrite <- !app_assoc. cbn [app].
        unfold created_files, closed_files in *. cbn [flat_map app].
        rewrite Hcl. cbn [rev]. rewrite <- app_assoc. cbn [app].
        repeat split.
        constructor; [apply Hc|]. constructor; [apply Hw|].
        eapply Forall_impl; [|exact Hf]. apply marker_entry_more.
Qed.

(** The entries logged before the detection starts, and after. *)
Definition early (binary : str) (e : event) : Prop :=
  is_stdout e = true
  \/ exists output f, e = Ran binary [bytes "--version"] output f.

Definition late (binary : str) (succ : list ScummGameMatch) (e : event)
  : Prop :=
  marker_entry succ e
  \/ (exists path output f,
        e = Ran binary [bytes "--detect"; bytes "--path=" ++ path] output f)
  \/ (exists name data f, e = Wrote name data f).

(** The state at the end of [main]: the log is a part [pre] from before
    the detection followed by a part [post]; [post] is only there after a
    run of [--version] that did not fail and printed ScummVM; the markers
    logged in [post] belong to entries [succ] returned by the parser for
    the output of a detection logged in [post]; the deferred calls close
    the files created, the last first; no file has been closed yet. *)
Definition shape (binary : str) (st : state) : Prop :=
  exists pre post succ,
    log st = pre ++ post
    /\ Forall (early binary) pre
    /\ (post <> [] ->
        exists output,
          In (Ran binary [bytes "--version"] output false) pre
          /\ strings.Contains output (bytes "ScummVM") = true)
    /\ Forall (late binary succ) post
    /\ Forall (fun m => exists output,
                   In (detection binary (Directory m) output) post
                   /\ parse output = Return (GameID m) (Description m))
              succ
    /\ map snd (deferred st) = rev (created_files post)
    /\ closed_files post = [].

Lemma shape_early binary st :
  deferred st = [] -> Forall (early binary) (log st) -> shape binary st.
Proof.
  intros Hd Hl. exists (log st), [], []. rewrite app_nil_r, Hd.
  repeat split; auto; try constructor. congruence.
Qed.

(** Lines 322-366, for the two slices the detection returned. *)
Definition reports_and_markers (succ errs : list ScummGameMatch) : M unit :=
  bind (report (bytes "success.json") succ) (fun _ =>
  bind (report (bytes "error.json") errs) (fun _ =>
  bind (Println (bytes "Writing entries out to .scummvm files...")) (fun _ =>
  markers succ))).

(** Lines 276-366, what [main] does once the version is accepted. *)
Definition after_version (binary data : str) : M unit :=
  bind (listing data) (fun d =>
  match d with
  | inl err => bind (Println (ErrorText err)) (fun _ => exit)
  | inr dirs =>
      bind (detect binary data dirs [] []) (fun r =>
      reports_and_markers (fst r) (snd r))
  end).

Lemma reports_and_markers_grows binary succ errs :
  grows (late binary succ) (reports_and_markers succ errs).
Proof.
  assert (Hrep : forall name entries,
             grows (late binary succ) (report name entries)).
  { intros name entries.
    apply grows_weaken
      with (K := fun e => is_stdout e = true
                          \/ exists data f, e = Wrote name data f).
    - intros e [H|(data & f & ->)]; [left; now left|].
      right. right. eauto.
    - apply adds_grows; [|apply report_adds].
      intros e [H|(data & f & ->)].
      + destruct e; try discriminate. split; [discriminate|reflexivity].
      + split; [discriminate|reflexivity]. }
  unfold reports_and_markers.
  apply grows_bind; [apply Hrep|]. intros _.
  apply grows_bind; [apply Hrep|]. intros _.
  apply grows_bind.
  - apply grows_weaken with (K := fun e => is_stdout e = true);
      [intros e H; left; now left|].
    apply adds_grows; [|now apply adds_Println].
    intros e H. destruct e; try discriminate.
    split; [discriminate|reflexivity].
  - intros _. apply grows_weaken with (K := marker_entry succ);
      [intros e H; now left|apply markers_grows].
Qed.

Lemma detect_entries_no_files binary added :
  Forall (fun e => is_stdout e = true
                   \/ exists path output f,
                        e = Ran binary
                                [bytes "--detect"; bytes "--path=" ++ path]
                                output f)
         added ->
  created_files added = [] /\ closed_files added = [].
Proof.
  apply no_files. intros e [H|(path & output & f & ->)].
  - destruct e; try discriminate. split; [discriminate|reflexivity].
  - split; [discriminate|reflexivity].
Qed.

Lemma after_version_shape binary data st :
  deferred st = [] ->
  Forall (early binary) (log st) ->
  (exists output,
      In (Ran binary [bytes "--version"] output false) (log st)
      /\ strings.Contains output (bytes "ScummVM") = true) ->
  shape binary (final_state (after_version binary data st)).
Proof.
  intros Hd Hpre Hgate. unfold after_version. unfold bind at 1.
  destruct (listing_result data st) as (r & w & ->).
  destruct r as [err|dirs].
  - unfold bind, Println, emit, exit. cbn [final_state world log deferred].
    apply shape_early; cbn [deferred log]; [exact Hd|].
    apply Forall_app. split; [exact Hpre|].
    constructor; [now left|constructor].
  - unfold bind at 1.
    destruct (detect_spec binary data dirs [] [] (mkState w (log st) (deferred st)))
      as (succ & errs & added & w' & -> & _ & _ & _ & Hgood & Hk).
    cbn [app fst snd log deferred].
    destruct (reports_and_markers_grows binary succ errs
                (mkState w' (log st ++ added) (deferred st)))
      as (added' & Hl & Hf & Hdef & Hcl).
    cbn [log deferred] in Hl, Hdef.
    destruct (detect_entries_no_files binary added Hk) as [Hc1 Hc2].
    exists (log st), (added ++ added'), succ.
    rewrite Hl, Hdef, Hd, app_assoc, created_files_app, closed_files_app.
    rewrite Hc1, Hc2, Hcl, app_nil_r. cbn [app map].
    repeat split; auto.
    + apply Forall_app. split; [|exact Hf].
      eapply Forall_impl; [|exact Hk].
      intros e [H|H]; [left; now left|right; now left].
    + eapply Forall_impl; [|exact Hgood].
      intros m (o & Ho & Hp). exists o. split; [|exact Hp].
      apply in_or_app. now left.
Qed.

Lemma early_stdout binary l text :
  Forall (early binary) l -> Forall (early binary) (l ++ [Stdout text]).
Proof.
  intros H. apply Forall_app. split; [exact H|].
  constructor; [now left|constructor].
Qed.

Lemma check_early binary path message st :
  deferred st = [] -> Forall (early binary) (log st) ->
  deferred (final_state (check path message st)) = []
  /\ Forall (early binary) (log (final_state (check path message st))).
Proof.
  intros Hd Hl. destruct (check_adds path message st) as (Hd' & added & -> & Hf).
  split; [congruence|]. apply Forall_app. split; [exact Hl|].
  eapply Forall_impl; [|exact Hf]. intros e H. now left.
Qed.

Lemma main_shape (Args : list str) w :
  shape (@nth str 1 Args []) (final_state (program Args (mkState w [] []))).
Proof.
  unfold main.
  match goal with |- context [if ?c then _ else _] => destruct c end.
  { unfold bind, Println, emit, exit. cbn [final_state world log deferred].
    apply shape_early; [reflexivity|].
    cbn [log app]. constructor; [now left|constructor]. }
  set (binary := @nth str 1 Args []). set (data := @nth str 2 Args []).
  set (st0 := mkState w [] []).
  assert (H0 : deferred st0 = [] /\ Forall (early binary) (log st0))
    by (split; [reflexivity|constructor]).
  unfold bind at 1.
  destruct (check_early binary binary (bytes "The first argument is not a file")
              st0 (proj1 H0) (proj2 H0)) as [Hd1 Hl1].
  destruct (check binary (bytes "The first argument is not a file") st0)
    as [[] st1|st1|st1]; cbn [final_state] in Hd1, Hl1 |- *;
    try (now apply shape_early).
  unfold bind at 1.
  destruct (check_early binary data
              (bytes "The second argument is not a directory") st1 Hd1 Hl1)
    as [Hd2 Hl2].
  destruct (check data (bytes "The second argument is not a directory") st1)
    as [[] st2|st2|st2]; cbn [final_state] in Hd2, Hl2 |- *;
    try (now apply shape_early).
  unfold bind at 1.
  destruct (execute_result binary [bytes "--version"] st2)
    as (output & err & w3 & ->).
  cbn [fst snd].
  destruct err as [err|].
  { unfold bind, Println, emit, exit. cbn [final_state world log deferred].
    apply shape_early; [exact Hd2|]. cbn [log].
    apply early_stdout, early_stdout. apply Forall_app. split; [exact Hl2|].
    constructor; [right; eauto|constructor]. }
  destruct (strings.Contains output (bytes "ScummVM")) eqn:Ev; cbn [negb].
  2:{ unfold bind, Println, emit, exit. cbn [final_state world log deferred].
      apply shape_early; [exact Hd2|]. cbn [log].
      apply early_stdout. apply Forall_app. split; [exact Hl2|].
      constructor; [right; eauto|constructor]. }
  apply (after_version_shape binary data).
  - exact Hd2.
  - cbn [log]. apply Forall_app. split; [exact Hl2|].
    constructor; [right; eauto|constructor].
  - exists output. cbn [log is_some]. split; [|exact Ev].
    apply in_or_app. right. now left.
Qed.

Lemma run_deferred_log calls : forall w l,
  snd (@run_deferred World File File_Close calls w l)
  = l ++ map (fun c => Closed (snd c)) calls.
Proof.
  induction calls as [|[file name] calls IH]; intros w l; cbn [run_deferred map].
  - now rewrite app_nil_r.
  - rewrite IH. cbn [snd]. now rewrite <- app_assoc.
Qed.

(** The log of a whole run: the log of [main], then the files created
    being closed, the last created first. *)
Lemma run_main_log (Args : list str) w :
  exists pre post succ,
    snd (fst (whole_run Args w))
    = (pre ++ post) ++ map Closed (rev (created_files post))
    /\ Forall (early (@nth str 1 Args [])) pre
    /\ (post <> [] ->
        exists output,
          In (Ran (@nth str 1 Args []) [bytes "--version"] output false) pre
          /\ strings.Contains output (bytes "ScummVM") = true)
    /\ Forall (late (@nth str 1 Args []) succ) post
    /\ Forall (fun m => exists output,
                   In (detection (@nth str 1 Args []) (Directory m) output) post
                   /\ parse output = Return (GameID m) (Description m))
              succ
    /\ closed_files post = [].
Proof.
  destruct (main_shape Args w)
    as (pre & post & succ & Hl & Hpre & Hgate & Hpost & Hgood & Hdef & Hcl).
  exists pre, post, succ. unfold run_main. cbn [fst snd].
  rewrite run_deferred_log, Hl, <- Hdef, map_map. repeat split; auto.
Qed.

(** [m] only adds to the log. *)
Definition extends {A : Type} (m : M A) : Prop :=
  forall st, exists added, log (final_state (m st)) = log st ++ added.

Lemma grows_extends {A : Type} K (m : M A) : grows K m -> extends m.
Proof. intros H st. destruct (H st) as (added & Hl & _). eauto. Qed.

Lemma adds_extends {A : Type} K (m : M A) : adds K m -> extends m.
Proof. intros H st. destruct (H st) as (_ & added & Hl & _). eauto. Qed.

Lemma extends_bind {A B : Type} (m : M A) (k : A -> M B) :
  extends m -> (forall a, extends (k a)) -> extends (bind m k).
Proof.
  intros Hm Hk st. unfold bind. specialize (Hm st).
  destruct (m st) as [a st'|st'|st']; cbn [final_state] in Hm |- *;
    try exact Hm.
  destruct Hm as (added & Hl). destruct (Hk a st') as (added' & Hl').
  exists (added ++ added'). now rewrite Hl', Hl, app_assoc.
Qed.

Lemma after_version_extends binary data : extends (after_version binary data).
Proof.
  unfold after_version. apply extends_bind.
  - intros st. destruct (listing_result data st) as (r & w & ->).
    exists []. cbn. now rewrite app_nil_r.
  - intros [err|dirs].
    + apply (adds_extends (fun _ => True)).
      apply adds_bind; [now apply adds_Println|]. intros _. apply adds_exit.
    + apply extends_bind.
      * intros st.
        destruct (detect_spec binary data dirs [] [] st)
          as (succ & errs & added & w & -> & _). exists added. reflexivity.
      * intros r. apply (grows_extends (late binary (fst r))).
        apply reports_and_markers_grows.
Qed.

(** Under the contract of [os.Stat] (no [FileInfo] comes with an error),
    a check goes on without a word or panics. *)
Lemma check_passes_or_panics path message st :
  (forall p w, snd (fst (os_Stat p w)) <> None ->
               fst (fst (os_Stat p w)) = None) ->
  exists w,
    check path message st = Go tt (mkState w (log st) (deferred st))
    \/ check path message st = Crash (mkState w (log st) (deferred st)).
Proof.
  intros Hstat. unfold check_argument, bind, call.
  specialize (Hstat path (world st)).
  destruct (os_Stat path (world st)) as [[f err] w]. cbn [fst snd] in *.
  exists w. destruct err as [err|]; [|now left].
  destruct (IsNotExist err); [|now left].
  rewrite Hstat by discriminate. now right.
Qed.

(** X13. [getScummvmDataFileDirectories] returns the names of exactly the
    entries of the directory that are directories, in the order
    [os.ReadDir] gave them; when [os.ReadDir] fails it returns that error
    and no name; it prints and writes nothing. *)
Theorem directories_listed :
  forall dir st,
    @getScummvmDataFileDirectories World Err File os_ReadDir dir st
    = match os_ReadDir dir (world st) with
      | (files, Some err, w) =>
          Go (inl err) (mkState w (log st) (deferred st))
      | (files, None, w) =>
          Go (inr (map entry_Name (filter entry_IsDir files)))
             (mkState w (log st) (deferred st))
      end.
Proof.
  intros dir st. unfold getScummvmDataFileDirectories, bind, call, ret.
  destruct (os_ReadDir dir (world st)) as [[files [err|]] w]; cbn [fst snd];
    [reflexivity|].
  now rewrite directories_of_filter.
Qed.

(** X14. The detection loop of [main] never stops early: every directory
    ends in exactly one of the two slices, under its joined path; an
    entry of the error slice has the identifier "unknown"; an entry of
    the success slice has a non-empty identifier and description. *)
Theorem detection_partitions_directories :
  forall binary data dirs st,
    exists succ errs st',
      detect binary data dirs [] [] st = Go (succ, errs) st'
      /\ length succ + length errs = length dirs
      /\ Permutation (map Directory succ ++ map Directory errs)
                     (map (filepath_Join data) dirs)
      /\ Forall (fun m => GameID m = unknown) errs
      /\ Forall (fun m => GameID m <> [] /\ Description m <> []) succ
      /\ deferred st' = deferred st.
Proof.
  intros binary data dirs st.
  destruct (detect_spec binary data dirs [] [] st)
    as (succ & errs & added & w & H & Hlen & Hperm & Hbad & Hgood & _).
  exists succ, errs, (mkState w (log st ++ added) (deferred st)).
  repeat split; auto.
  eapply Forall_impl; [|exact Hgood].
  intros m (output & _ & Hp). eapply parse_return_nonempty; eauto.
Qed.

(** X15. Whatever the outside does, every string written to a marker file
    in a run of [main] is non-empty, goes to the file named by a joined
    directory path followed by ".scummvm", and is the identifier the
    parser returned for the output of a detection of that path which did
    not fail, logged in the same run. *)
Theorem markers_hold_detected_ids :
  forall (Args : list str) w,
    Forall (fun e =>
              match e with
              | WroteString name data _ =>
                  data <> []
                  /\ exists path output desc,
                       name = path ++ bytes ".scummvm"
                       /\ In (detection (@nth str 1 Args []) path output)
                             (snd (fst (whole_run Args w)))
                       /\ parse output = Return data desc
              | _ => True
              end)
           (snd (fst (whole_run Args w))).
Proof.
  intros Args w.
  destruct (run_main_log Args w)
    as (pre & post & succ & -> & Hpre & _ & Hpost & Hgood & _).
  rewrite Forall_forall in Hgood.
  apply Forall_app. split; [apply Forall_app; split|].
  - eapply Forall_impl; [|exact Hpre].
    intros e [H|(o & f & ->)]; [destruct e; try discriminate|]; exact I.
  - rewrite Forall_forall in Hpost |- *. intros e He.
    destruct (Hpost e He)
      as [[H|(m & f & Hm & [-> | ->])]|[(pth & o & f & ->)|(n & d & f & ->)]];
      try exact I.
    + destruct e; try discriminate. exact I.
    + destruct (Hgood m Hm) as (output & Hin & Hp).
      split; [exact (proj1 (parse_return_nonempty _ _ _ Hp))|].
      exists (Directory m), output, (Description m).
      repeat split; auto.
      apply in_or_app. left. apply in_or_app. now right.
  - apply Forall_forall. intros e He.
    apply in_map_iff in He as (n & <- & _). exact I.
Qed.

(** X16. Whatever the outside does, a run of [main] detects nothing and
    writes, creates or closes no file unless it has run the binary with
    [--version] before, without a failure and with "ScummVM" in the
    output. *)
Theorem version_gate :
  forall (Args : list str) w,
    Forall (fun e =>
              acts e = true ->
              exists output,
                In (Ran (@nth str 1 Args []) [bytes "--version"] output false)
                   (snd (fst (whole_run Args w)))
                /\ strings.Contains output (bytes "ScummVM") = true)
           (snd (fst (whole_run Args w))).
Proof.
  intros Args w.
  destruct (run_main_log Args w)
    as (pre & post & succ & -> & Hpre & Hgate & _).
  assert (Hg : post <> [] ->
               exists output,
                 In (Ran (@nth str 1 Args []) [bytes "--version"] output false)
                    ((pre ++ post) ++ map Closed (rev (created_files post)))
                 /\ strings.Contains output (bytes "ScummVM") = true).
  { intros Hne. destruct (Hgate Hne) as (o & Ho & Hc). exists o.
    split; [|exact Hc]. apply in_or_app. left. apply in_or_app. now left. }
  apply Forall_app. split; [apply Forall_app; split|].
  - eapply Forall_impl; [|exact Hpre].
    intros e [H|(o & f & ->)] Ha; unfold acts in Ha.
    + rewrite H in Ha. discriminate.
    + cbn in Ha.
      destruct (list_eq_dec (list_eq_dec ascii_dec) [bytes "--version"]
                            [bytes "--version"]); [discriminate|congruence].
  - apply Forall_forall. intros e He _. apply Hg.
    intros ->. contradiction.
  - apply Forall_forall. intros e He _. apply Hg.
    intros ->. contradiction.
Qed.

(** X17. Every file created in a run of [main] is closed once, at the
    very end of the run and after everything else, the last created
    first; nothing is closed before. *)
Theorem files_closed_last :
  forall (Args : list str) w,
    exists body,
      snd (fst (whole_run Args w))
      = body ++ map Closed (rev (created_files body))
      /\ closed_files body = [].
Proof.
  intros Args w.
  destruct (run_main_log Args w)
    as (pre & post & succ & -> & Hpre & _ & _ & _ & Hcl).
  assert (Hp : created_files pre = [] /\ closed_files pre = []).
  { eapply no_files; [|exact Hpre].
    intros e [H|(o & f & ->)].
    - destruct e; try discriminate. split; [discriminate|reflexivity].
    - split; [discriminate|reflexivity]. }
  destruct Hp as [Hp1 Hp2].
  exists (pre ++ post).
  now rewrite created_files_app, closed_files_app, Hp1, Hp2, Hcl.
Qed.

(** X18. With two arguments or more and [os.Stat] keeping its contract
    (no [FileInfo] together with an error), the two argument checks of
    [main] never end the run with their message: either the run panics in
    a check, having printed and run nothing, or the first thing the run
    does is to run the first argument with [--version], whether or not
    that argument is a file. *)
Theorem argument_checks_never_reject :
  forall (Args : list str) w,
    (forall p w', snd (fst (os_Stat p w')) <> None ->
                  fst (fst (os_Stat p w')) = None) ->
    3 <= length Args ->
    (snd (whole_run Args w) = true /\ snd (fst (whole_run Args w)) = [])
    \/ exists output failed rest,
         snd (fst (whole_run Args w))
         = Ran (@nth str 1 Args []) [bytes "--version"] output failed :: rest.
Proof.
  intros Args w Hstat Hlen.
  remember (program Args (mkState w [] [])) as r eqn:Er.
  assert (Hmain :
    (crashed r = true /\ log (final_state r) = []
     /\ deferred (final_state r) = [])
    \/ exists output failed rest,
         log (final_state r)
         = Ran (@nth str 1 Args []) [bytes "--version"] output failed :: rest).
  { unfold main in Er.
    assert (Hlt : (length Args <? 3) = false) by (apply Nat.ltb_ge; exact Hlen).
    rewrite Hlt in Er.
    set (binary := @nth str 1 Args []) in *.
    set (data := @nth str 2 Args []) in *.
    unfold bind at 1 in Er.
    destruct (check_passes_or_panics binary
                (bytes "The first argument is not a file")
                (mkState w [] []) Hstat) as (w1 & [E | E]);
      rewrite E in Er; [|subst r; left; repeat split; reflexivity].
    unfold bind at 1 in Er. cbn [log deferred] in Er.
    destruct (check_passes_or_panics data
                (bytes "The second argument is not a directory")
                (mkState w1 [] []) Hstat) as (w2 & [E2 | E2]);
      rewrite E2 in Er; [|subst r; left; repeat split; reflexivity].
    right. unfold bind at 1 in Er. cbn [log deferred] in Er.
    destruct (execute_result binary [bytes "--version"] (mkState w2 [] []))
      as (output & err & w3 & E3).
    rewrite E3 in Er. cbn [fst snd log deferred app] in Er.
    exists output, (is_some err).
    assert (Hext : exists added,
               log (final_state r)
               = [Ran binary [bytes "--version"] output (is_some err)]
                   ++ added).
    { destruct err as [err|].
      - subst r. eexists. unfold bind, Println, emit, exit.
        cbn [final_state world log deferred]. rewrite <- app_assoc.
        reflexivity.
      - destruct (strings.Contains output (bytes "ScummVM"));
          cbn [negb] in Er; subst r.
        + apply (after_version_extends binary data
                   (mkState w3 [Ran binary [bytes "--version"] output false]
                            [])).
        + eexists. unfold bind, Println, emit, exit.
          cbn [final_state world log deferred]. reflexivity. }
    destruct Hext as (added & ->). cbn [app]. eauto. }
  unfold run_main. cbn [fst snd]. rewrite <- Er, run_deferred_log.
  destruct Hmain as [(Hc & Hl & Hd)|(output & failed & rest & Hl)].
  - left. rewrite Hl, Hd. split; [exact Hc|reflexivity].
  - right. rewrite Hl. cbn [app]. eauto.
Qed.

End ProgramFacts.

(** ** A run of [main] *)

Example demo_run_log :
  demo_run demo_Args
  = (tt,
     [Ran (bytes "scummvm") [bytes "--version"]
          (bytes "ScummVM 2.7.0 (Feb 14 2023 14:26:43)" ++ [LF]) false;
      Stdout (bytes "games/Empty... ");
      Ran (bytes "scummvm") [bytes "--detect"; bytes "--path=games/Empty"]
          (sample_not_found ++ [LF]) false;
      Stdout (cross_mark ++ [LF]);
      Stdout (bytes "games/Loom... ");
      Ran (bytes "scummvm") [bytes "--detect"; bytes "--path=games/Loom"]
          (sample_loom ++ [LF]) false;
      Stdout (check_mark ++ [LF]);
      Wrote (bytes "success.json") (bytes "scumm:loom") false;
      Wrote (bytes "error.json") (bytes "unknown") false;
      Stdout (bytes "Writing entries out to .scummvm files..." ++ [LF]);
      Created (bytes "games/Loom.scummvm") false;
      WroteString (bytes "games/Loom.scummvm") (bytes "scumm:loom") false;
      Closed (bytes "games/Loom.scummvm")],
     false).
Proof. vm_compute. reflexivity. Qed.

Lemma argument_checks_never_reject_witness :
  (snd (demo_run demo_Args) = true /\ snd (fst (demo_run demo_Args)) = [])
  \/ exists output failed rest,
       snd (fst (demo_run demo_Args))
       = Ran (@nth str 1 demo_Args []) [bytes "--version"] output failed
         :: rest.
Proof.
  apply (argument_checks_never_reject
           unit str str (fun err : str => err) (fun _ => false) demo_Stat
           demo_Run demo_ReadDir demo_Join demo_Marshal demo_WriteFile
           demo_Create demo_WriteString demo_Close
           stem_id (base_of backslash) strutil.Similarity demo_Args tt).
  - intros p w' H. cbn in H. congruence.
  - cbn. lia.
Defined.
